(** * robot.libraries.XML: a shallow embedding and its verified properties

    The development follows [src/robot/libraries/XML.py]: the [XML] keyword
    class (source resolution, element lookup, text extraction, attribute
    assertions, serialisation), the [ElementComparator] and the [Location]
    breadcrumb.

    Conventions.
    - Python strings are [string] (sequences of 8-bit characters); the
      whitespace of [str.strip()] and of the pattern [\s] is the same six
      characters.
    - [element.attrib] is a dict whose iteration order the comparator
      observes; it is an association list, read with [getitem]/[get]. The
      keys of a dict are distinct; no result below needs that.
    - [Location._children] is a dict used only as a map: a [gmap string nat].
    - [Location] objects are mutable and handed around by reference; they
      live in a store ([heap]) and are named by their address.
    - Exceptions are values of [exception]; a method that can raise returns
      a [result].
    - The ElementTree library ([ET.parse], [findall], [ET.tostring]) and the
      pattern matcher of [BuiltIn.should_match] are parameters. *)

From Stdlib Require Import Ascii String DecimalString DecimalNat DecimalFacts.
From stdpp Require Import base list gmap strings sorting.

Open Scope string_scope.
Open Scope nat_scope.
Open Scope list_scope.

(** ** Exceptions and results *)

(** [AssertionError] carries the message handed to the failing primitive
    ([None]: the message the primitive generates by itself). *)
Inductive exception :=
| ParseError
| RuntimeError (msg : string)
| AssertionError (msg : option string)
| KeyError (key : string).

Inductive result (A : Type) :=
| Ok (a : A)
| Raise (e : exception).
Arguments Ok {A} a.
Arguments Raise {A} e.

Definition rbind {A B} (r : result A) (k : A → result B) : result B :=
  match r with
  | Ok a => k a
  | Raise e => Raise e
  end.

Notation "'try!' x := r 'in' k" := (rbind r (λ x, k))
  (at level 10, x name, r at level 100, k at level 200).

(** ** Elements *)

(** An ElementTree element. [text] and [tail] are [None] or a string. *)
#[local] Unset Elimination Schemes.
Inductive Element := mkElement {
  tag : string;
  attrib : list (string * string);
  text : option string;
  tail : option string;
  children : list Element
}.
#[local] Set Elimination Schemes.

(** [len(element)]: the number of children. *)
Definition len (e : Element) : nat := length (children e).

(** [dict[key]] and [dict.get(key, default)] on an attribute dict. *)
Fixpoint get (d : list (string * string)) (key : string) : option string :=
  match d with
  | [] => None
  | (k, v) :: d' => if String.eqb k key then Some v else get d' key
  end.

Definition getitem (d : list (string * string)) (key : string) : result string :=
  match get d key with
  | Some v => Ok v
  | None => Raise (KeyError key)
  end.

(** Iterating a dict yields its keys. *)
Definition keys (d : list (string * string)) : list string := d.*1.

(** [sorted] on a list of strings. *)
Definition sorted (l : list string) : list string := merge_sort String.le l.

(** ** Whitespace *)

(** Truthiness of [element.text] / [element.tail]: [None] and [''] are
    false. *)
Definition truthy (t : option string) : bool :=
  match t with
  | None | Some "" => false
  | Some _ => true
  end.

(** The characters matched by [\s] and removed by [str.strip()]:
    tab, newline, vertical tab, form feed, carriage return, space. *)
Definition is_space : Ascii.ascii → bool := Ascii.is_space.

Fixpoint lstrip (s : string) : string :=
  match s with
  | "" => ""
  | String c r => if is_space c then lstrip r else s
  end.

Fixpoint rstrip (s : string) : string :=
  match s with
  | "" => ""
  | String c r =>
      match rstrip r with
      | "" => if is_space c then "" else String c ""
      | r' => String c r'
      end
  end.

(** [text.strip()] *)
Definition strip (s : string) : string := rstrip (lstrip s).

(** [_whitespace.sub(' ', s)] with [_whitespace = re.compile('\s+')]:
    scanning from the left, every maximal run of whitespace is replaced by
    one space. [in_run] tells that the previous character belonged to a run
    whose replacement has been emitted already. *)
Fixpoint whitespace_sub_from (in_run : bool) (s : string) : string :=
  match s with
  | "" => ""
  | String c r =>
      if is_space c
      then if in_run then whitespace_sub_from true r
           else String " "%char (whitespace_sub_from true r)
      else String c (whitespace_sub_from false r)
  end.

Definition whitespace_sub : string → string := whitespace_sub_from false.

(** [XML._normalize_whitespace] *)
Definition _normalize_whitespace (text : string) : string :=
  whitespace_sub (strip text).

(** The normalisation as the specification words it: collapse every maximal
    whitespace run to a single space, then trim both ends. *)
Definition collapse_then_trim (text : string) : string :=
  strip (whitespace_sub text).

(** ** Serialisation header *)

Fixpoint remove_prefix (p s : string) : option string :=
  match p with
  | "" => Some s
  | String a p' =>
      match s with
      | String b s' => if Ascii.eqb a b then remove_prefix p' s' else None
      | "" => None
      end
  end.

(** The text before the first newline and the text after it. *)
Fixpoint first_line (s : string) : option (string * string) :=
  match s with
  | "" => None
  | String c r =>
      if Ascii.eqb c "010"%char then Some ("", r)
      else match first_line r with
           | Some (l, rest) => Some (String c l, rest)
           | None => None
           end
  end.

Fixpoint ends_with (suffix s : string) : bool :=
  String.eqb s suffix ||
  match s with
  | "" => false
  | String _ r => ends_with suffix r
  end.

(** [_xml_declaration.sub('', s)] with
    [_xml_declaration = re.compile('^<\?xml .*\?>\n')].
    [^] matches at the start of the string only, and [.] matches no
    newline: a match is the literal ["<?xml "], then the rest of the first
    line, which has to end in ["?>"], then the newline that ends that line.
    There is at most one match, and it is deleted. *)
Definition _xml_declaration_sub (s : string) : string :=
  match remove_prefix "<?xml " s with
  | Some r =>
      match first_line r with
      | Some (l, rest) => if ends_with "?>" l then rest else s
      | None => s
      end
  | None => s
  end.

(** ** Python values handed to the comparison primitives *)

Inductive value :=
| VNone
| VStr (s : string)
| VInt (n : nat)
| VList (l : list string).

Global Instance value_eq_dec : EqDecision value.
Proof. solve_decision. Defined.

Definition of_option (o : option string) : value :=
  match o with
  | Some s => VStr s
  | None => VNone
  end.

(** Modelled from the spec: the two assertion primitives of
    [robot.libraries.BuiltIn], which this file imports and which are not
    part of it. Each is a check on two values that, on mismatch, raises a
    failure carrying the message it was given. A [primitive] is the check;
    [assert_with] is the call. *)
Definition primitive := value → value → bool.

Definition assert_with (accepts : primitive) (first second : value)
    (msg : option string) : result unit :=
  if accepts first second then Ok () else Raise (AssertionError msg).

(** Modelled from the spec: [BuiltIn.should_be_equal], the strict equality
    check. *)
Definition should_be_equal : primitive := λ first second,
  bool_decide (first = second).

(** ** Locations *)

(** [class Location]: [_path] and the per-tag occurrence counter
    [_children]. *)
Record Location := mkLocation {
  _path : string;
  _children : gmap string nat
}.

Global Instance Location_inhabited : Inhabited Location :=
  populate (mkLocation "" ∅).

(** Location objects are shared by reference: the store holds them, an
    [address] names one. Every address the code holds names an object of
    the store; reading any other address yields the default object and
    writing to it changes nothing. *)
Abbreviation address := nat (only parsing).
Abbreviation heap := (list Location) (only parsing).

(** ['%d' % n] *)
Definition format_d (n : nat) : string := NilZero.string_of_uint (Nat.to_uint n).

(** [Location.__init__]: a new object with an empty counter. *)
Definition Location_init (path : string) (h : heap) : heap * address :=
  (h ++ [mkLocation path ∅], length h).

(** [Location.__str__] *)
Definition __str__ (self : address) (h : heap) : string := _path (h !!! self).

(** [self._children[tag] = n] *)
Definition set_counter (self : address) (tag : string) (n : nat) (h : heap) : heap :=
  let this := h !!! self in
  <[self := mkLocation (_path this) (<[tag := n]> (_children this))]> h.

(** [self._children[tag]] *)
Definition counter (self : address) (tag : string) (h : heap) : nat :=
  default 0 (_children (h !!! self) !! tag).

(** [Location.child] *)
Definition child (self : address) (tag : string) (h : heap) : heap * address :=
  match _children (h !!! self) !! tag with
  | None =>
      let h := set_counter self tag 1 h in
      Location_init (_path (h !!! self) +:+ "/" +:+ tag) h
  | Some n =>
      let h := set_counter self tag (n + 1) h in
      let tag := tag +:+ "[" +:+ format_d (counter self tag h) +:+ "]" in
      Location_init (_path (h !!! self) +:+ "/" +:+ tag) h
  end.

(** ** The comparator's state *)

(** One invocation of [ElementComparator._compare]: its [message], [actual]
    and [expected] arguments, and whether the comparison primitive accepted
    the pair. *)
Record check := mkCheck {
  chk_message : string;
  chk_actual : value;
  chk_expected : value;
  chk_passed : bool
}.

(** A comparison run works on the store of [Location] objects; [checks]
    records the invocations of [_compare] so far, oldest first. *)
Record world := mkWorld {
  locations : heap;
  checks : list check
}.

(** Stateful code that may raise: the state reached is kept when it does. *)
Definition M (A : Type) : Type := world → world * result A.

Definition mret {A} (a : A) : M A := λ w, (w, Ok a).

Definition mbind {A B} (m : M A) (k : A → M B) : M B := λ w,
  match m w with
  | (w', Ok a) => k a w'
  | (w', Raise e) => (w', Raise e)
  end.

Notation "'do!' x := m 'in' k" := (mbind m (λ x, k))
  (at level 10, x name, m at level 100, k at level 200).
Notation "m ;;; k" := (mbind m (λ _, k))
  (at level 100, k at level 200, right associativity).

Definition lift {A} (r : result A) : M A := λ w, (w, r).

(** An operation on the store of locations, as a step of [M]. *)
Definition on_heap {A} (op : heap → heap * A) : M A := λ w,
  let '(h, a) := op (locations w) in (mkWorld h (checks w), Ok a).

(** [for x in xs: body(x)] *)
Definition for_each {A} (body : A → M unit) : list A → M unit :=
  fix loop xs :=
    match xs with
    | [] => mret ()
    | x :: xs' => body x ;;; loop xs'
    end.

(** [for x, y in zip(xs, ys): body(x, y)] *)
Definition for_zip {A B} (body : A → B → M unit) : list A → list B → M unit :=
  fix loop xs ys :=
    match xs, ys with
    | x :: xs', y :: ys' => body x y ;;; loop xs' ys'
    | _, _ => mret ()
    end.

(** ** ElementComparator *)

Record ElementComparator := mkElementComparator {
  _comparator : primitive;
  _normalizer : option (string → string)
}.

(** [ElementComparator._compare]: the message gets the place when there is
    a location, the primitive is the one given or else the comparator's
    own, and the primitive is called. The invocation is recorded in
    [checks]. *)
Definition _compare (self : ElementComparator) (actual expected : value)
    (message : string) (location : option address)
    (comparator : option primitive) : M unit := λ w,
  let message' :=
    match location with
    | Some l => message +:+ " at '" +:+ __str__ l (locations w) +:+ "'"
    | None => message
    end in
  let comparator :=
    match comparator with
    | Some c => c
    | None => _comparator self
    end in
  (mkWorld (locations w)
     (checks w ++ [mkCheck message actual expected (comparator actual expected)]),
   assert_with comparator actual expected (Some message')).

(** [ElementComparator._compare_tags] *)
Definition _compare_tags (self : ElementComparator) (actual expected : Element)
    (location : option address) : M unit :=
  _compare self (VStr (tag actual)) (VStr (tag expected)) "Different tag name"
    location (Some should_be_equal).

(** [ElementComparator._text] *)
Definition _text (self : ElementComparator) (text : option string) : string :=
  match text with
  | None | Some "" => ""
  | Some t =>
      match _normalizer self with
      | None => t
      | Some normalizer => normalizer t
      end
  end.

(** [ElementComparator._compare_texts] *)
Definition _compare_texts (self : ElementComparator) (actual expected : Element)
    (location : option address) : M unit :=
  _compare self (VStr (_text self (text actual))) (VStr (_text self (text expected)))
    "Different text" location None.

(** [ElementComparator._compare_attributes] *)
Definition _compare_attributes (self : ElementComparator) (actual expected : Element)
    (location : option address) : M unit :=
  _compare self (VList (sorted (keys (attrib actual))))
    (VList (sorted (keys (attrib expected))))
    "Different attribute names" location (Some should_be_equal) ;;;
  for_each (λ key,
    do! a := lift (getitem (attrib actual) key) in
    do! e := lift (getitem (attrib expected) key) in
    _compare self (VStr a) (VStr e)
      ("Different value for attribute '" +:+ key +:+ "'") location None)
    (keys (attrib actual)).

(** [ElementComparator._compare_tails] *)
Definition _compare_tails (self : ElementComparator) (actual expected : Element)
    (location : option address) : M unit :=
  _compare self (VStr (_text self (tail actual))) (VStr (_text self (tail expected)))
    "Different tail text" location None.

(** [ElementComparator._compare_children]; [compare] is the method it
    calls back for every pair of children. *)
Definition _compare_children
    (compare : Element → Element → option address → M unit)
    (self : ElementComparator) (actual expected : Element)
    (location : option address) : M unit :=
  _compare self (VInt (len actual)) (VInt (len expected))
    "Different number of child elements" location (Some should_be_equal) ;;;
  do! location :=
    match location with
    | Some l => mret l
    | None => on_heap (Location_init (tag actual))
    end in
  for_zip (λ act exp,
    do! l := on_heap (child location (tag act)) in
    compare act exp (Some l))
    (children actual) (children expected).

(** [ElementComparator.compare] *)
Fixpoint compare (self : ElementComparator) (actual expected : Element)
    (location : option address) {struct actual} : M unit :=
  _compare_tags self actual expected location ;;;
  _compare_attributes self actual expected location ;;;
  _compare_texts self actual expected location ;;;
  _compare_tails self actual expected location ;;;
  _compare_children (compare self) self actual expected location.

(** *** The checks as the specification orders them *)

(** The value check of one attribute, made with the comparator's own
    primitive. *)
Definition attribute_value_check (self : ElementComparator)
    (actual expected : Element) (key : string) : check :=
  let a := of_option (get (attrib actual) key) in
  let e := of_option (get (attrib expected) key) in
  mkCheck ("Different value for attribute '" +:+ key +:+ "'") a e
    (_comparator self a e).

(** A check made with the strict equality primitive. *)
Definition strict_check (message : string) (a e : value) : check :=
  mkCheck message a e (should_be_equal a e).

(** The checks of one pair of elements in the order the specification
    gives them: tag, attribute names (sorted), attribute values in
    attribute order, own text, own tail, child count. *)
Definition node_checks (self : ElementComparator) (actual expected : Element)
    : list check :=
  [strict_check "Different tag name" (VStr (tag actual)) (VStr (tag expected))]
  ++ [strict_check "Different attribute names"
        (VList (sorted (keys (attrib actual))))
        (VList (sorted (keys (attrib expected))))]
  ++ map (attribute_value_check self actual expected) (keys (attrib actual))
  ++ [let a := VStr (_text self (text actual)) in
      let e := VStr (_text self (text expected)) in
      mkCheck "Different text" a e (_comparator self a e)]
  ++ [let a := VStr (_text self (tail actual)) in
      let e := VStr (_text self (tail expected)) in
      mkCheck "Different tail text" a e (_comparator self a e)]
  ++ [strict_check "Different number of child elements"
        (VInt (len actual)) (VInt (len expected))].

(** The checks of the pairs of children, pair after pair in document
    order; as [zip] does, the pairing ends with the shorter sequence. *)
Definition zip_checks (plan : Element → Element → list check)
    : list Element → list Element → list check :=
  fix pairs acts exps :=
    match acts, exps with
    | act :: acts', exp :: exps' => plan act exp ++ pairs acts' exps'
    | _, _ => []
    end.

(** The checks of two whole trees in the specification's order: those of
    the node, then those of each pair of children. *)
Fixpoint planned_checks (self : ElementComparator) (actual expected : Element)
    {struct actual} : list check :=
  node_checks self actual expected ++
  zip_checks (planned_checks self) (children actual) (children expected).

(** The checks up to and including the first that fails. *)
Fixpoint until_failure (cs : list check) : list check :=
  match cs with
  | [] => []
  | c :: cs' => if chk_passed c then c :: until_failure cs' else [c]
  end.

(** The first check that fails, if any. *)
Definition first_failure (cs : list check) : option check :=
  find (λ c, negb (chk_passed c)) cs.

(** The message a check fails with: [message], with the place when there is
    a location. *)
Definition located (message : string) (location : option address) (h : heap)
    : string :=
  match location with
  | Some l => message +:+ " at '" +:+ __str__ l h +:+ "'"
  | None => message
  end.

(** [m] makes the checks of [plan] in order and stops at the first that
    fails: it records the checks up to and including that one, and raises
    the assertion error of that check; it returns when none fails. *)
Definition performs {A} (m : M A) (plan : list check) : Prop :=
  ∀ w,
    checks (m w).1 = checks w ++ until_failure plan
    ∧ match first_failure plan with
      | None => ∃ a, (m w).2 = Ok a
      | Some c =>
          ∃ suffix, (m w).2 = Raise (AssertionError (Some (chk_message c +:+ suffix)))
      end.

(** ** The XML keyword class *)

(** What a keyword accepts as source: something to parse (a path or a
    string, [isinstance(source, basestring)]) or a parsed element. *)
Inductive source :=
| Document (reference : string)
| Parsed (element : Element).

Section XML.

(** The ElementTree library and the pattern matcher of [should_match] are
    used as they come.
    - [ET_parse]: [ET.parse(...).getroot()] on a source opened by
      [ETSource]; [None] when the source cannot be read or is not
      well-formed.
    - [findall]: [Element.findall].
    - [tostring]: [ET.tostring(element, encoding='UTF-8')], decoded.
    - [matches]: the glob matching behind [BuiltIn.should_match]. *)
Variable ET_parse : string → option Element.
Variable findall : Element → string → list Element.
Variable tostring : Element → string.
Variable matches : string → string → bool.

(** Modelled from the spec: [BuiltIn.should_match], the pattern-capable
    check, on a string and a pattern. *)
Definition should_match : primitive := λ first second,
  match first, second with
  | VStr s, VStr pattern => matches s pattern
  | _, _ => false
  end.

(** [XML.parse_xml] *)
Definition parse_xml (reference : string) : result Element :=
  match ET_parse reference with
  | Some root => Ok root
  | None => Raise ParseError
  end.

(** [XML._get_parent] *)
Definition _get_parent (src : source) : result Element :=
  match src with
  | Document reference => parse_xml reference
  | Parsed element => Ok element
  end.

(** [XML._get_xpath]: both versions hand the query on unchanged (the
    older one converts its type and may log a warning). *)
Definition _get_xpath (xpath : string) : string := xpath.

(** [XML.get_elements] *)
Definition get_elements (src : source) (xpath : string) : result (list Element) :=
  try! parent := _get_parent src in
  Ok (findall parent (_get_xpath xpath)).

(** [XML.get_element] *)
Definition get_element (src : source) (xpath : string) : result Element :=
  if String.eqb xpath "." then _get_parent src
  else
    try! elements := get_elements src xpath in
    match elements with
    | [] => Raise (RuntimeError ("No element matching '" +:+ xpath +:+ "' found."))
    | first :: _ =>
        if (1 <? length elements)%nat
        then Raise (RuntimeError ("Multiple elements (" +:+ format_d (length elements)
                                  +:+ ") matching '" +:+ xpath +:+ "' found."))
        else Ok first
    end.

(** [XML.get_child_elements] *)
Definition get_child_elements (src : source) (xpath : string) : result (list Element) :=
  try! element := get_element src xpath in
  Ok (children element).

(** [XML._yield_texts]: the strings the generator yields, in order. *)
Fixpoint _yield_texts (element : Element) (top : bool) : list string :=
  (if truthy (text element) then [default "" (text element)] else [])
  ++ flat_map (λ child, _yield_texts child false) (children element)
  ++ (if truthy (tail element) && negb top then [default "" (tail element)] else []).

(** [''.join(strings)] *)
Definition join (strings : list string) : string :=
  foldr String.append "" strings.

(** [XML.get_element_text] *)
Definition get_element_text (src : source) (xpath : string)
    (normalize_whitespace : bool) : result string :=
  try! element := get_element src xpath in
  let text := join (_yield_texts element true) in
  let text := if normalize_whitespace then _normalize_whitespace text else text in
  Ok text.




(** [XML.get_element_attribute] *)
Definition get_element_attribute (src : source) (name : string)
    (xpath : string) (default : value) : result value :=
  try! element := get_element src xpath in
  Ok (match get (attrib element) name with
      | Some v => VStr v
      | None => default
      end).

(** [XML.get_element_attributes] *)
Definition get_element_attributes (src : source) (xpath : string)
    : result (list (string * string)) :=
  try! element := get_element src xpath in
  Ok (attrib element).

(** [XML.element_attribute_should_be] *)
Definition element_attribute_should_be (src : source) (name : string)
    (expected : value) (xpath : string) (message : option string)
    : result unit :=
  try! attr := get_element_attribute src name xpath VNone in
  assert_with should_be_equal attr expected message.

(** [XML.element_attribute_should_match] *)
Definition element_attribute_should_match (src : source) (name : string)
    (pattern : value) (xpath : string) (message : option string)
    : result unit :=
  try! attr := get_element_attribute src name xpath VNone in
  if bool_decide (attr = VNone)
  then Raise (AssertionError (Some ("Attribute '" +:+ name +:+ "' does not exist.")))
  else assert_with should_match attr pattern message.

(** A comparison starts with no location object and no check made. *)
Definition fresh : world := mkWorld [] [].

(** [XML._compare_elements] *)
Definition _compare_elements (src expected : source) (comparator : primitive)
    (normalize_whitespace : bool) : result unit :=
  let normalizer :=
    if normalize_whitespace then Some _normalize_whitespace else None in
  let comparator := mkElementComparator comparator normalizer in
  try! actual := get_element src "." in
  try! expected := get_element expected "." in
  (compare comparator actual expected None fresh).2.

(** [XML.elements_should_be_equal] *)
Definition elements_should_be_equal (src expected : source)
    (normalize_whitespace : bool) : result unit :=
  _compare_elements src expected should_be_equal normalize_whitespace.

(** [XML.elements_should_match] *)
Definition elements_should_match (src expected : source)
    (normalize_whitespace : bool) : result unit :=
  _compare_elements src expected should_match normalize_whitespace.

(** [XML.element_to_string] *)
Definition element_to_string (src : source) : result string :=
  try! element := get_element src "." in
  Ok (_xml_declaration_sub (tostring element)).

End XML.

(** The extracted text as the specification words it: the element's own
    leading text, then for each child, in document order, that child's
    extracted text followed by that child's tail; [None] counts as the
    empty string, and the element's own tail takes no part. *)
Fixpoint extracted_text (element : Element) : string :=
  default "" (text element) +:+
  join (map (λ child, extracted_text child +:+ default "" (tail child))
            (children element)).

(** The document [<a>X<b>Y</b>Z</a>], parsed. *)
Definition doc_a_X_b_Y_Z : Element :=
  mkElement "a" [] (Some "X") None
    [mkElement "b" [] (Some "Y") (Some "Z") []].

(** The two cardinality errors of [get_element], told apart by their
    message. *)
Definition NoMatch (e : exception) : Prop :=
  ∃ xpath, e = RuntimeError ("No element matching '" +:+ xpath +:+ "' found.").

Definition Ambiguous (e : exception) : Prop :=
  ∃ n xpath, e = RuntimeError ("Multiple elements (" +:+ format_d n
                                +:+ ") matching '" +:+ xpath +:+ "' found.").

(** The newline character as a string, and the strings without one. *)
Definition newline : string := String "010"%char "".

Fixpoint no_newline (s : string) : bool :=
  match s with
  | "" => true
  | String c r => negb (Ascii.eqb c "010"%char) && no_newline r
  end.

(** A sequence of calls [location.child(tag)], made in order on whichever
    Location objects the calls name; the store they leave. *)
Fixpoint child_calls (calls : list (address * string)) (h : heap) : heap :=
  match calls with
  | [] => h
  | (l, t) :: rest => child_calls rest (child l t h).1
  end.

(** How often [location.child(tag)] occurs among [calls]. *)
Definition occurrences (location : address) (tag : string)
    (calls : list (address * string)) : nat :=
  length (filter (λ c, c = (location, tag)) calls).

(** The path segment of the [n]th child with one tag, as the specification
    words it: the bare tag for the first, [tag[n]] from the second on. *)
Definition segment (tag : string) (n : nat) : string :=
  if decide (n = 1) then tag else tag +:+ "[" +:+ format_d n +:+ "]".

(** The attribute names of an element, as a set. *)
Definition key_set (e : Element) : gset string := list_to_set (keys (attrib e)).

(** Two [item] elements that agree on [id] and differ in their key sets. *)
Definition item_id : Element :=
  mkElement "item" [("id", "1")] None None [].

Definition item_id_x : Element :=
  mkElement "item" [("id", "1"); ("x", "2")] None None [].

(** [<a><b/><b/></a>] and [<a><b/><b>x</b></a>]: the second [b] differs. *)
Definition doc_a_b_b : Element :=
  mkElement "a" [] None None
    [mkElement "b" [] None None []; mkElement "b" [] None None []].

Definition doc_a_b_bx : Element :=
  mkElement "a" [] None None
    [mkElement "b" [] None None []; mkElement "b" [] (Some "x") None []].

(** [<a>  x \n y </a>] and [<a>x y</a>]: equal up to whitespace. *)
Definition doc_spaced : Element :=
  mkElement "a" [] (Some ("  x " +:+ newline +:+ " y ")) None [].

Definition doc_plain : Element :=
  mkElement "a" [] (Some "x y") None [].

(** ** Shapes of strings *)




(** ** Structural equality *)

(** Two sequences of children agree pairwise and in number. *)
Definition pairwise (P : Element → Element → Prop)
    : list Element → list Element → Prop :=
  fix pairs acts exps :=
    match acts, exps with
    | [], [] => True
    | act :: acts', exp :: exps' => P act exp ∧ pairs acts' exps'
    | _, _ => False
    end.

(** The relation a comparator decides: equal tags; the same attribute
    names (the key lists are rearrangements of each other); for every
    attribute an accepted pair of values; accepted texts and tails, after
    [_text]; as many children, which are related pair by pair in document
    order. *)
Fixpoint related (self : ElementComparator) (actual expected : Element)
    {struct actual} : Prop :=
  tag actual = tag expected
  ∧ keys (attrib actual) ≡ₚ keys (attrib expected)
  ∧ (∀ key, key ∈ keys (attrib actual) →
       _comparator self (of_option (get (attrib actual) key))
         (of_option (get (attrib expected) key)) = true)
  ∧ _comparator self (VStr (_text self (text actual)))
      (VStr (_text self (text expected))) = true
  ∧ _comparator self (VStr (_text self (tail actual)))
      (VStr (_text self (tail expected))) = true
  ∧ pairwise (related self) (children actual) (children expected).

(** What a comparison returns, given the message of its first failure. *)
Definition outcome (failure : option string) : result unit :=
  match failure with
  | None => Ok ()
  | Some message => Raise (AssertionError (Some message))
  end.

(** The comparator [_compare_elements] builds. *)
Definition comparator_for (comparator : primitive) (normalize_whitespace : bool)
    : ElementComparator :=
  mkElementComparator comparator
    (if normalize_whitespace then Some _normalize_whitespace else None).

(** The text of an element as [get_element_text] gives it: the extracted
    text, normalised when asked for. *)
Definition element_text (normalize_whitespace : bool) (element : Element) : string :=
  if normalize_whitespace
  then _normalize_whitespace (extracted_text element)
  else extracted_text element.

(** ** The place of a failure *)

(** How often [tag] occurs among the tags [seen]. *)
Definition count_tag (tag : string) (seen : list string) : nat :=
  length (filter (λ t, t = tag) seen).

(** The path of a child with [tag] under [parent], after the children with
    the tags [seen]: [parent/tag] for the first child with that tag,
    [parent/tag[n]] for the [n]th. *)
Definition child_path (parent : string) (seen : list string) (tag : string)
    : string :=
  parent +:+ "/" +:+ segment tag (S (count_tag tag seen)).

(** [message] with its place, when there is one. *)
Definition place (message : string) (path : option string) : string :=
  match path with
  | Some p => message +:+ " at '" +:+ p +:+ "'"
  | None => message
  end.

(** The first failure among the pairs of children, each pair compared at
    its own path under [parent]. *)
Definition zip_failures (failure : Element → Element → string → option string)
    (parent : string) : list string → list Element → list Element → option string :=
  fix pairs seen acts exps :=
    match acts, exps with
    | act :: acts', exp :: exps' =>
        match failure act exp (child_path parent seen (tag act)) with
        | Some message => Some message
        | None => pairs (tag act :: seen) acts' exps'
        end
    | _, _ => None
    end.

(** The message a comparison fails with, computed without any Location
    object: that of the first failing check of the node, placed at [path]
    (no place at the root); otherwise that of the first failing pair of
    children, whose paths extend [path], or the root's tag when there is
    no path yet. [None] when nothing fails. *)
Fixpoint failure_message (self : ElementComparator) (actual expected : Element)
    (path : option string) {struct actual} : option string :=
  match first_failure (node_checks self actual expected) with
  | Some c => Some (place (chk_message c) path)
  | None =>
      zip_failures (λ act exp p, failure_message self act exp (Some p))
        (default (tag actual) path) [] (children actual) (children expected)
  end.

(** What [_compare_children] does after its own check: it takes the
    location it was given or makes the root's, and compares the pairs of
    children. *)
Definition compare_pairs (self : ElementComparator) (actual expected : Element)
    (location : option address) : M unit :=
  do! location :=
    match location with
    | Some l => mret l
    | None => on_heap (Location_init (tag actual))
    end in
  for_zip (λ act exp,
    do! l := on_heap (child location (tag act)) in
    compare self act exp (Some l))
    (children actual) (children expected).

(** [m] makes the checks of [plan] without touching the Location objects;
    at the first that fails it raises that check's message with the place
    of [location]; when none fails it goes on as [k]. *)
Definition checks_then {B} (m : M B) (plan : list check)
    (location : option address) (k : M B) : Prop :=
  ∀ w, ∃ cs,
    match first_failure plan with
    | Some c =>
        m w = (mkWorld (locations w) cs,
               Raise (AssertionError
                        (Some (located (chk_message c) location (locations w)))))
    | None => m w = k (mkWorld (locations w) cs)
    end.

(** The store [h'] extends [h], keeps the path of every object of [h], and
    keeps every object of [h] but the one at [location] as it is. *)
Definition frame (location : option address) (h h' : heap) : Prop :=
  length h ≤ length h'
  ∧ (∀ x, x < length h → location ≠ Some x → h' !! x = h !! x)
  ∧ (∀ x, x < length h → _path <$> h' !! x = _path <$> h !! x).

(** The counter [cs] of a Location has counted the tags [seen]. *)
Definition counted (cs : gmap string nat) (seen : list string) : Prop :=
  ∀ t, cs !! t = match count_tag t seen with
                 | 0 => None
                 | S k => Some (S k)
                 end.

(** What [compare] is shown to do, for one actual element: it changes no
    Location but its own and those it makes, and it returns or raises as
    [failure_message] tells, at the path of its location. *)
Definition compare_exact (self : ElementComparator) (actual : Element) : Prop :=
  ∀ expected location w,
    frame location (locations w)
      (locations (compare self actual expected location w).1)
    ∧ (location = None →
       (compare self actual expected location w).2
       = outcome (failure_message self actual expected None))
    ∧ (∀ l p, location = Some l → locations w !! l = Some (mkLocation p ∅) →
       (compare self actual expected location w).2
       = outcome (failure_message self actual expected (Some p))).

(** ** Sibling paths *)

(** No opening bracket in the string. *)
Fixpoint no_bracket (s : string) : bool :=
  match s with
  | "" => true
  | String c r => negb (Ascii.eqb c "["%char) && no_bracket r
  end.

(** The paths [child] gives, under [parent], to children with the tags
    [tags] that come after children with the tags [seen]. *)
Fixpoint paths_from (parent : string) (seen tags : list string) : list string :=
  match tags with
  | [] => []
  | t :: tags' => child_path parent seen t :: paths_from parent (t :: seen) tags'
  end.

(** Two elements that differ in the order of their attributes and in how
    an empty text is written ([None] or ['']), and in nothing else. *)
Definition pair_ab : Element :=
  mkElement "p" [("a", "1"); ("b", "2")] None None
    [mkElement "c" [] None (Some "") []].

Definition pair_ba : Element :=
  mkElement "p" [("b", "2"); ("a", "1")] (Some "") None
    [mkElement "c" [] (Some "") None []].

(** * Properties *)

(** Induction over the tree, with the hypothesis for every child. *)
Lemma Element_tree_ind (P : Element → Prop) :
  (∀ t a x y cs, Forall P cs → P (mkElement t a x y cs)) →
  ∀ e, P e.
Proof.
  intros step.
  fix IH 1. intros [t a x y cs]. apply step.
  induction cs as [|c cs IHcs]; constructor; [apply IH | exact IHcs].
Qed.

(** ** Strings *)

Lemma app_cons c s t : String c s +:+ t = String c (s +:+ t).
Proof. reflexivity. Qed.

Lemma app_empty_r s : s +:+ "" = s.
Proof. induction s as [|c s IH]; [done|]. by rewrite app_cons, IH. Qed.

Lemma app_assoc' s t u : (s +:+ t) +:+ u = s +:+ (t +:+ u).
Proof. induction s as [|c s IH]; [done|]. by rewrite !app_cons, IH. Qed.

Lemma join_app l1 l2 : join (l1 ++ l2) = join l1 +:+ join l2.
Proof.
  induction l1 as [|s l1 IH]; [done|].
  simpl. by rewrite IH, app_assoc'.
Qed.

(** ** Text extraction *)

Lemma join_truthy (t : option string) (b : bool) :
  join (if truthy t && b then [default "" t] else []) = if b then default "" t else "".
Proof.
  destruct t as [[|c s]|], b; simpl; try done.
  by rewrite app_empty_r.
Qed.

Lemma join_yield_texts e top :
  join (_yield_texts e top)
  = extracted_text e +:+ (if top then "" else default "" (tail e)).
Proof.
  revert top. induction e as [t a x y cs IH] using Element_tree_ind. intros top.
  cbn [_yield_texts extracted_text text tail children].
  rewrite !join_app, app_assoc'. f_equal.
  { pose proof (join_truthy x true) as H. rewrite andb_true_r in H. exact H. }
  f_equal.
  - induction IH as [|c cs Hc _ IHcs]; [done|].
    cbn [flat_map map join foldr]. fold (join (flat_map (λ child, _yield_texts child false) cs)).
    rewrite join_app, Hc, IHcs. done.
  - rewrite join_truthy. by destruct top.
Qed.

(** C3. For every element selected by [get_element], the text
    [get_element_text] returns without normalisation is the concatenation,
    in document order, of the element's own leading text and, for each
    child recursively, the child's extracted text followed by the child's
    own tail; the selected element's own tail is left out (changing it
    changes nothing), and a [None] text or tail contributes the empty
    string. For [<a>X<b>Y</b>Z</a>] the result is ["XYZ"]. *)
Theorem get_element_text_concatenates
    (ET_parse : string → option Element) (findall : Element → string → list Element)
    (src : source) (xpath : string) (e : Element) :
  get_element ET_parse findall src xpath = Ok e →
  get_element_text ET_parse findall src xpath false = Ok (extracted_text e)
  ∧ (∀ y, get_element_text ET_parse findall
            (Parsed (mkElement (tag e) (attrib e) (text e) y (children e))) "." false
          = Ok (extracted_text e))
  ∧ (∀ t a cs, extracted_text (mkElement t a None None cs)
               = join (map (λ c, extracted_text c +:+ default "" (tail c)) cs))
  ∧ get_element_text ET_parse findall (Parsed doc_a_X_b_Y_Z) "." false = Ok "XYZ".
Proof.
  intros He. split; [|split; [|split]].
  - unfold get_element_text. rewrite He. cbn [rbind].
    by rewrite join_yield_texts, app_empty_r.
  - intros y. unfold get_element_text. cbn [get_element String.eqb Ascii.eqb
      Bool.eqb _get_parent rbind].
    rewrite join_yield_texts, app_empty_r. by destruct e.
  - done.
  - reflexivity.
Qed.

Lemma get_element_text_concatenates_witness :
  get_element_text (λ _, None) (λ _ _, []) (Parsed doc_a_X_b_Y_Z) "." false
  = Ok (extracted_text doc_a_X_b_Y_Z).
Proof.
  refine (proj1 (get_element_text_concatenates (λ _, None) (λ _ _, [])
                   (Parsed doc_a_X_b_Y_Z) "." doc_a_X_b_Y_Z _)).
  reflexivity.
Defined.

(** ** Element lookup *)

Section Lookup.

Variable ET_parse : string → option Element.
Variable findall : Element → string → list Element.

Lemma get_parent_not_cardinality src err :
  _get_parent ET_parse src = Raise err → err = ParseError.
Proof.
  destruct src as [d|e]; simpl; [|done].
  unfold parse_xml. destruct (ET_parse d); congruence.
Qed.

Lemma ParseError_not_cardinality : ¬ NoMatch ParseError ∧ ¬ Ambiguous ParseError.
Proof. split; [intros [x Hx] | intros (n & x & Hx)]; discriminate. Qed.

Lemma NoMatch_not_Ambiguous err : NoMatch err → Ambiguous err → False.
Proof. intros [x ->] (n & y & H). discriminate. Qed.

(** [get_element] on a query other than ["."], by the number of matches. *)
Lemma get_element_cases src xpath r :
  xpath ≠ "." → _get_parent ET_parse src = Ok r →
  get_element ET_parse findall src xpath =
    match findall r xpath with
    | [] => Raise (RuntimeError ("No element matching '" +:+ xpath +:+ "' found."))
    | [e] => Ok e
    | _ :: _ :: _ =>
        Raise (RuntimeError ("Multiple elements ("
                 +:+ format_d (length (findall r xpath))
                 +:+ ") matching '" +:+ xpath +:+ "' found."))
    end.
Proof.
  intros Hx Hr. unfold get_element, get_elements, _get_xpath.
  apply String.eqb_neq in Hx. rewrite Hx, Hr. cbn [rbind].
  by destruct (findall r xpath) as [|e [|e' l]].
Qed.

End Lookup.

(** C4. For every source and every query other than ["."]: [get_element]
    raises the no-match error exactly when the source resolves and the
    query matches no element, raises the ambiguity error exactly when it
    matches more than one, and returns the match when there is exactly
    one; [get_elements] raises neither error, and returns the empty
    sequence when nothing matches. *)
Theorem get_element_cardinality
    (ET_parse : string → option Element) (findall : Element → string → list Element)
    (src : source) (xpath : string) :
  xpath ≠ "." →
  ((∃ err, get_element ET_parse findall src xpath = Raise err ∧ NoMatch err)
     ↔ ∃ r, _get_parent ET_parse src = Ok r ∧ findall r xpath = [])
  ∧ ((∃ err, get_element ET_parse findall src xpath = Raise err ∧ Ambiguous err)
     ↔ ∃ r, _get_parent ET_parse src = Ok r ∧ 1 < length (findall r xpath))
  ∧ (∀ e, get_element ET_parse findall src xpath = Ok e
     ↔ ∃ r, _get_parent ET_parse src = Ok r ∧ findall r xpath = [e])
  ∧ (∀ err, get_elements ET_parse findall src xpath = Raise err →
       ¬ NoMatch err ∧ ¬ Ambiguous err)
  ∧ (∀ r, _get_parent ET_parse src = Ok r →
       get_elements ET_parse findall src xpath = Ok (findall r xpath))
  ∧ (∀ r, _get_parent ET_parse src = Ok r → findall r xpath = [] →
       get_elements ET_parse findall src xpath = Ok []).
Proof.
  intros Hx.
  assert (Hfail : ∀ err, _get_parent ET_parse src = Raise err →
            get_element ET_parse findall src xpath = Raise err).
  { intros err Herr. unfold get_element, get_elements.
    apply String.eqb_neq in Hx. by rewrite Hx, Herr. }
  pose proof (get_element_cases ET_parse findall src xpath) as Hcases.
  destruct (_get_parent ET_parse src) as [r|perr] eqn:Hr.
  - specialize (Hcases r Hx eq_refl).
    split; [|split; [|split; [|split; [|split]]]].
    + split.
      * intros (err & Herr & Hk). exists r. split; [done|].
        rewrite Hcases in Herr.
        destruct (findall r xpath) as [|e [|e' l]]; [done|done|].
        simplify_eq. exfalso. eapply NoMatch_not_Ambiguous; [exact Hk|].
        by eexists _, _.
      * intros (? & [= <-] & Hnil). rewrite Hcases, Hnil.
        eexists. split; [done|]. by eexists.
    + split.
      * intros (err & Herr & Hk). exists r. split; [done|].
        rewrite Hcases in Herr.
        destruct (findall r xpath) as [|e [|e' l]]; [|done|simpl; lia].
        simplify_eq. exfalso. eapply NoMatch_not_Ambiguous; [|exact Hk].
        by eexists.
      * intros (? & [= <-] & Hlen). rewrite Hcases.
        destruct (findall r xpath) as [|e [|e' l]]; [simpl in Hlen; lia..|].
        eexists. split; [done|]. by eexists _, _.
    + intros e. rewrite Hcases. split.
      * intros He. exists r. split; [done|].
        destruct (findall r xpath) as [|e1 [|e' l]]; congruence.
      * intros (? & [= <-] & Hone). by rewrite Hone.
    + intros err. unfold get_elements. rewrite Hr. done.
    + intros ? [= <-]. unfold get_elements. by rewrite Hr.
    + intros ? [= <-] Hnil. unfold get_elements, _get_xpath.
      rewrite Hr. cbn [rbind]. by rewrite Hnil.
  - specialize (Hfail perr eq_refl).
    pose proof (get_parent_not_cardinality ET_parse src perr Hr) as ->.
    destruct ParseError_not_cardinality as [Hn Ha].
    split; [|split; [|split; [|split; [|split]]]].
    + split; [intros (err & Herr & Hk) | intros (r & ? & _); done].
      rewrite Hfail in Herr. by simplify_eq.
    + split; [intros (err & Herr & Hk) | intros (r & ? & _); done].
      rewrite Hfail in Herr. by simplify_eq.
    + intros e. rewrite Hfail. split; [done | intros (r & ? & _); done].
    + intros err. unfold get_elements. rewrite Hr. cbn [rbind].
      intros ?. by simplify_eq.
    + done.
    + done.
Qed.

Lemma get_element_cardinality_witness :
  get_element (λ _, None) (λ _ _, []) (Parsed doc_a_X_b_Y_Z) "b" = Ok doc_a_X_b_Y_Z
  ↔ ∃ r, _get_parent (λ _, None) (Parsed doc_a_X_b_Y_Z) = Ok r ∧ [] = [doc_a_X_b_Y_Z].
Proof.
  refine (proj1 (proj2 (proj2 (get_element_cardinality (λ _, None) (λ _ _, [])
                   (Parsed doc_a_X_b_Y_Z) "b" _))) doc_a_X_b_Y_Z).
  discriminate.
Defined.

(** C5. [get_element(source, '.')] returns the source element itself: the
    element handed in when the source is already parsed, the parsed root
    when the source is a document reference that parses; the query engine
    is not consulted, so the result does not depend on it, and neither the
    no-match nor the ambiguity error is ever raised. *)
Theorem get_element_self
    (ET_parse : string → option Element) (findall : Element → string → list Element)
    (src : source) (root : Element) :
  _get_parent ET_parse src = Ok root →
  get_element ET_parse findall src "." = Ok root
  ∧ (∀ e, src = Parsed e → root = e)
  ∧ (∀ d, src = Document d → ET_parse d = Some root)
  ∧ (∀ findall', get_element ET_parse findall' src "." = Ok root)
  ∧ (∀ src' err, get_element ET_parse findall src' "." = Raise err →
       ¬ NoMatch err ∧ ¬ Ambiguous err).
Proof.
  intros Hr. split; [exact Hr|]. split; [|split; [|split]].
  - intros e ->. simpl in Hr. congruence.
  - intros d ->. simpl in Hr. unfold parse_xml in Hr.
    destruct (ET_parse d); congruence.
  - intros findall'. exact Hr.
  - intros src' err Herr. change (_get_parent ET_parse src' = Raise err) in Herr.
    apply get_parent_not_cardinality in Herr as ->.
    apply ParseError_not_cardinality.
Qed.

Lemma get_element_self_witness :
  get_element (λ _, Some doc_a_X_b_Y_Z) (λ _ _, []) (Document "a.xml") "."
  = Ok doc_a_X_b_Y_Z.
Proof.
  refine (proj1 (get_element_self (λ _, Some doc_a_X_b_Y_Z) (λ _ _, [])
                   (Document "a.xml") doc_a_X_b_Y_Z _)).
  reflexivity.
Defined.

(** ** Attribute assertions *)

(** C10. For an element that lacks the attribute [name]:
    [element_attribute_should_match] raises the assertion error saying that
    the attribute does not exist, whatever the pattern, the matcher and
    the caller's message are (the pattern check is not reached);
    [element_attribute_should_be] makes no such check: the lookup yields
    [None], which goes into the equality comparison, so the keyword
    succeeds when the expected value is [None] and otherwise fails with the
    equality failure. *)
Theorem attribute_assertions_on_missing
    (ET_parse : string → option Element) (findall : Element → string → list Element)
    (src : source) (xpath name : string) (e : Element) :
  get_element ET_parse findall src xpath = Ok e →
  get (attrib e) name = None →
  get_element_attribute ET_parse findall src name xpath VNone = Ok VNone
  ∧ (∀ matches pattern message,
       element_attribute_should_match ET_parse findall matches src name pattern
         xpath message
       = Raise (AssertionError (Some ("Attribute '" +:+ name +:+ "' does not exist."))))
  ∧ (∀ message,
       element_attribute_should_be ET_parse findall src name VNone xpath message
       = Ok ())
  ∧ (∀ expected message, expected ≠ VNone →
       element_attribute_should_be ET_parse findall src name expected xpath message
       = Raise (AssertionError message)).
Proof.
  intros He Hname.
  assert (Hattr : get_element_attribute ET_parse findall src name xpath VNone = Ok VNone).
  { unfold get_element_attribute. rewrite He. cbn [rbind]. by rewrite Hname. }
  split; [exact Hattr|]. split; [|split].
  - intros matches pattern message.
    unfold element_attribute_should_match. by rewrite Hattr.
  - intros message. unfold element_attribute_should_be. by rewrite Hattr.
  - intros expected message Hne.
    unfold element_attribute_should_be. rewrite Hattr. cbn [rbind].
    unfold assert_with, should_be_equal. by rewrite bool_decide_false.
Qed.

Lemma attribute_assertions_on_missing_witness :
  element_attribute_should_be (λ _, None) (λ _ _, []) (Parsed doc_a_X_b_Y_Z)
    "id" VNone "." None = Ok ().
Proof.
  refine (proj1 (proj2 (proj2 (attribute_assertions_on_missing (λ _, None) (λ _ _, [])
            (Parsed doc_a_X_b_Y_Z) "." "id" doc_a_X_b_Y_Z _ _))) None);
    reflexivity.
Defined.

(** ** Serialisation *)

Lemma first_line_app l rest :
  no_newline l = true → first_line (l +:+ newline +:+ rest) = Some (l, rest).
Proof.
  induction l as [|c l IH]; [done|].
  cbn [no_newline]. intros [Hc Hl]%andb_true_iff.
  rewrite app_cons. cbn [first_line].
  apply negb_true_iff in Hc. by rewrite Hc, IH.
Qed.

Lemma no_newline_app s t :
  no_newline (s +:+ t) = no_newline s && no_newline t.
Proof.
  induction s as [|c s IH]; [done|].
  rewrite app_cons. cbn [no_newline]. by rewrite IH, andb_assoc.
Qed.

Lemma ends_with_refl x : ends_with x x = true.
Proof. destruct x; cbn [ends_with]; by rewrite String.eqb_refl. Qed.

Lemma ends_with_app x m : ends_with x (m +:+ x) = true.
Proof.
  induction m as [|c m IH]; [apply ends_with_refl|].
  rewrite app_cons. cbn [ends_with]. rewrite IH. apply orb_true_r.
Qed.

(** A declaration line at the start is cut off together with its newline. *)
Lemma xml_declaration_sub_header mid body :
  no_newline mid = true →
  _xml_declaration_sub ("<?xml " +:+ mid +:+ "?>" +:+ newline +:+ body) = body.
Proof.
  intros Hmid. unfold _xml_declaration_sub.
  change (remove_prefix "<?xml " ("<?xml " +:+ mid +:+ "?>" +:+ newline +:+ body))
    with (Some (mid +:+ "?>" +:+ newline +:+ body)).
  rewrite <- (app_assoc' mid "?>"), first_line_app.
  - by rewrite ends_with_app.
  - by rewrite no_newline_app, Hmid.
Qed.

(** C9. [element_to_string] returns the serialisation of the selected
    element after the declaration pattern has been deleted from its start:
    when the serialisation opens with a declaration line, [<?xml ...?>]
    closed by a newline as ElementTree writes it, the result is what
    follows that line; when it does not open with [<?xml ], the result is
    the serialisation unchanged. *)
Theorem element_to_string_strips_declaration
    (ET_parse : string → option Element) (findall : Element → string → list Element)
    (tostring : Element → string) (src : source) (e : Element) :
  get_element ET_parse findall src "." = Ok e →
  element_to_string ET_parse findall tostring src
    = Ok (_xml_declaration_sub (tostring e))
  ∧ (∀ mid body, no_newline mid = true →
       tostring e = "<?xml " +:+ mid +:+ "?>" +:+ newline +:+ body →
       element_to_string ET_parse findall tostring src = Ok body)
  ∧ (remove_prefix "<?xml " (tostring e) = None →
       element_to_string ET_parse findall tostring src = Ok (tostring e)).
Proof.
  intros He.
  assert (H : element_to_string ET_parse findall tostring src
              = Ok (_xml_declaration_sub (tostring e))).
  { unfold element_to_string. by rewrite He. }
  split; [exact H|]. split.
  - intros mid body Hmid Hs. rewrite H, Hs. f_equal.
    by apply xml_declaration_sub_header.
  - intros Hnone. rewrite H. unfold _xml_declaration_sub. by rewrite Hnone.
Qed.

Lemma element_to_string_strips_declaration_witness :
  element_to_string (λ _, None) (λ _ _, [])
    (λ _, "<?xml version='1.0' encoding='UTF-8'?>" +:+ newline +:+ "<a>X<b>Y</b>Z</a>")
    (Parsed doc_a_X_b_Y_Z)
  = Ok "<a>X<b>Y</b>Z</a>".
Proof.
  refine (proj1 (proj2 (element_to_string_strips_declaration (λ _, None) (λ _ _, [])
            (λ _, "<?xml version='1.0' encoding='UTF-8'?>" +:+ newline +:+ "<a>X<b>Y</b>Z</a>")
            (Parsed doc_a_X_b_Y_Z) doc_a_X_b_Y_Z _))
          "version='1.0' encoding='UTF-8'" "<a>X<b>Y</b>Z</a>" _ _);
    reflexivity.
Defined.

(** ** Whitespace normalisation *)

Lemma whitespace_sub_from_true s :
  whitespace_sub_from true s = whitespace_sub_from false (lstrip s).
Proof.
  induction s as [|c s IH]; [done|].
  cbn [whitespace_sub_from lstrip]. destruct (is_space c) eqn:Hc; [done|].
  cbn [whitespace_sub_from]. by rewrite Hc.
Qed.

Lemma lstrip_whitespace_sub_lstrip s :
  lstrip (whitespace_sub_from false (lstrip s)) = whitespace_sub_from false (lstrip s).
Proof.
  induction s as [|c s IH]; [done|].
  cbn [lstrip]. destruct (is_space c) eqn:Hc; [done|].
  cbn [whitespace_sub_from]. rewrite Hc. cbn [lstrip]. by rewrite Hc.
Qed.

Lemma lstrip_whitespace_sub s :
  lstrip (whitespace_sub s) = whitespace_sub (lstrip s).
Proof.
  unfold whitespace_sub. destruct s as [|c s]; [done|].
  cbn [whitespace_sub_from lstrip]. destruct (is_space c) eqn:Hc.
  - cbn [lstrip]. change (is_space " ") with true. cbv iota.
    rewrite whitespace_sub_from_true. apply lstrip_whitespace_sub_lstrip.
  - cbn [whitespace_sub_from lstrip]. by rewrite !Hc.
Qed.

Lemma whitespace_sub_from_false_nonempty c s :
  whitespace_sub_from false (String c s) ≠ "".
Proof. cbn [whitespace_sub_from]. by destruct (is_space c). Qed.

Lemma whitespace_sub_from_true_rstrip s :
  whitespace_sub_from true (rstrip s) = "" → rstrip s = "".
Proof.
  induction s as [|c s IH]; [done|].
  cbn [rstrip]. destruct (rstrip s) as [|d r] eqn:Hr.
  - destruct (is_space c) eqn:Hc; [done|].
    cbn [whitespace_sub_from]. by rewrite Hc.
  - cbn [whitespace_sub_from]. destruct (is_space c) eqn:Hc; [|done].
    intros H. by apply IH in H.
Qed.

Lemma whitespace_sub_from_cons b c r :
  whitespace_sub_from b (String c r)
  = if is_space c
    then if b then whitespace_sub_from true r
         else String " " (whitespace_sub_from true r)
    else String c (whitespace_sub_from false r).
Proof. reflexivity. Qed.

Lemma rstrip_cons c r :
  rstrip (String c r)
  = match rstrip r with
    | "" => if is_space c then "" else String c ""
    | r' => String c r'
    end.
Proof. reflexivity. Qed.

Lemma rstrip_whitespace_sub_from b s :
  rstrip (whitespace_sub_from b s) = whitespace_sub_from b (rstrip s).
Proof.
  revert b. induction s as [|c s IH]; intros b; [done|].
  rewrite whitespace_sub_from_cons, (rstrip_cons c s).
  destruct (is_space c) eqn:Hc.
  - destruct b.
    + rewrite IH. destruct (rstrip s) as [|d r] eqn:Hr; [done|].
      by rewrite (whitespace_sub_from_cons true c), Hc.
    + rewrite rstrip_cons, IH. change (is_space " ") with true.
      destruct (rstrip s) as [|d r] eqn:Hr; [done|].
      rewrite (whitespace_sub_from_cons false c), Hc.
      destruct (whitespace_sub_from true (String d r)) as [|d' r'] eqn:Hw; [|done].
      rewrite <- Hr in Hw. apply whitespace_sub_from_true_rstrip in Hw. congruence.
  - rewrite rstrip_cons, IH.
    destruct (rstrip s) as [|d r] eqn:Hr.
    + by rewrite whitespace_sub_from_cons, Hc.
    + rewrite (whitespace_sub_from_cons b c), Hc.
      destruct (whitespace_sub_from false (String d r)) as [|d' r'] eqn:Hw; [|done].
      by apply whitespace_sub_from_false_nonempty in Hw.
Qed.

(** Trimming and collapsing commute: the code's order (strip, then
    substitute) and the specification's (collapse, then trim) give the same
    string. *)
Lemma normalize_whitespace_collapse_then_trim s :
  _normalize_whitespace s = collapse_then_trim s.
Proof.
  unfold _normalize_whitespace, collapse_then_trim, strip, whitespace_sub.
  rewrite <- rstrip_whitespace_sub_from. f_equal.
  symmetry. apply lstrip_whitespace_sub.
Qed.

Lemma normalize_whitespace_empty : _normalize_whitespace "" = "".
Proof. reflexivity. Qed.

Lemma text_normalized cmp (t : option string) :
  _text (mkElementComparator cmp (Some _normalize_whitespace)) t
  = collapse_then_trim (default "" t).
Proof.
  rewrite <- normalize_whitespace_collapse_then_trim.
  by destruct t as [[|c s]|].
Qed.

Lemma text_not_normalized cmp (t : option string) :
  _text (mkElementComparator cmp None) t = default "" t.
Proof. by destruct t as [[|c s]|]. Qed.

(** The loops run the same steps when their bodies agree. *)
Lemma for_each_ext {A} (f g : A → M unit) xs :
  (∀ x w, f x w = g x w) → ∀ w, for_each f xs w = for_each g xs w.
Proof.
  intros Hfg. induction xs as [|x xs IH]; intros w; [done|].
  cbn [for_each]. unfold mbind. rewrite Hfg.
  destruct (g x w) as [w' [[]|err]]; [apply IH | done].
Qed.

(** C6. With whitespace normalisation requested, the comparator holds
    [_normalize_whitespace] as its normaliser. That function collapses
    every maximal whitespace run to one space and trims both ends (it
    turns ["  a \n b  "] into ["a b"]); the text check and the tail check
    compare the normalised actual value with the normalised expected
    value; the tag check and the attribute checks are the same with and
    without a normaliser. *)
Theorem normalization_on_text_and_tail_only (cmp : primitive) :
  (∀ s, _normalize_whitespace s = collapse_then_trim s)
  ∧ _normalize_whitespace ("  a " +:+ newline +:+ " b  ") = "a b"
  ∧ (∀ actual expected location,
       _compare_texts (mkElementComparator cmp (Some _normalize_whitespace))
         actual expected location
       = _compare (mkElementComparator cmp (Some _normalize_whitespace))
           (VStr (collapse_then_trim (default "" (text actual))))
           (VStr (collapse_then_trim (default "" (text expected))))
           "Different text" location None)
  ∧ (∀ actual expected location,
       _compare_tails (mkElementComparator cmp (Some _normalize_whitespace))
         actual expected location
       = _compare (mkElementComparator cmp (Some _normalize_whitespace))
           (VStr (collapse_then_trim (default "" (tail actual))))
           (VStr (collapse_then_trim (default "" (tail expected))))
           "Different tail text" location None)
  ∧ (∀ normalizer actual expected location w,
       _compare_tags (mkElementComparator cmp normalizer) actual expected location w
       = _compare (mkElementComparator cmp None)
           (VStr (tag actual)) (VStr (tag expected))
           "Different tag name" location (Some should_be_equal) w)
  ∧ (∀ normalizer actual expected location w,
       _compare_attributes (mkElementComparator cmp normalizer) actual expected location w
       = _compare_attributes (mkElementComparator cmp None) actual expected location w).
Proof.
  split; [exact normalize_whitespace_collapse_then_trim|].
  split; [reflexivity|].
  split; [|split; [|split]].
  - intros actual expected location. unfold _compare_texts.
    by rewrite !text_normalized.
  - intros actual expected location. unfold _compare_tails.
    by rewrite !text_normalized.
  - done.
  - intros normalizer actual expected location w.
    unfold _compare_attributes, mbind.
    change (_compare (mkElementComparator cmp normalizer)
              (VList (sorted (keys (attrib actual))))
              (VList (sorted (keys (attrib expected))))
              "Different attribute names" location (Some should_be_equal) w)
      with (_compare (mkElementComparator cmp None)
              (VList (sorted (keys (attrib actual))))
              (VList (sorted (keys (attrib expected))))
              "Different attribute names" location (Some should_be_equal) w).
    destruct (_compare _ _ _ _ _ _ w) as [w' [[]|err]]; [|done].
    by apply for_each_ext.
Qed.

(** ** Locations *)

Lemma set_counter_length l t n h : length (set_counter l t n h) = length h.
Proof. apply length_insert. Qed.

Lemma set_counter_other l t n h a : a ≠ l → set_counter l t n h !! a = h !! a.
Proof. intros Ha. unfold set_counter. by apply list_lookup_insert_ne. Qed.

Lemma set_counter_at l t n h p cs :
  h !! l = Some (mkLocation p cs) →
  set_counter l t n h !! l = Some (mkLocation p (<[t := n]> cs)).
Proof.
  intros Hl. unfold set_counter.
  rewrite (list_lookup_total_correct _ _ _ Hl). cbn [_path _children].
  apply list_lookup_insert_eq. by eapply lookup_lt_Some.
Qed.

(** [child] leaves one more object in the store, at the next address. *)
Lemma child_fresh l t h :
  (child l t h).2 = length h ∧ length (child l t h).1 = S (length h).
Proof.
  unfold child, Location_init.
  destruct (_children (h !!! l) !! t); cbn [fst snd];
    rewrite ?length_app, !set_counter_length; cbn [length]; lia.
Qed.

(** [child] on one object leaves every other object as it was. *)
Lemma child_other l t h a :
  a ≠ l → a < length h → (child l t h).1 !! a = h !! a.
Proof.
  intros Hne Hlt. unfold child, Location_init.
  destruct (_children (h !!! l) !! t); cbn [fst];
    (rewrite lookup_app_l by (by rewrite set_counter_length));
    by apply set_counter_other.
Qed.

(** [child] on a live object: the counter of the tag goes up by one, and
    the new object carries the extended path and an empty counter. *)
Lemma child_at l t h p cs :
  h !! l = Some (mkLocation p cs) →
  let n := match cs !! t with None => 1 | Some n => n + 1 end in
  let tag' := match cs !! t with
              | None => t
              | Some _ => t +:+ "[" +:+ format_d n +:+ "]"
              end in
  (child l t h).1 !! l = Some (mkLocation p (<[t := n]> cs))
  ∧ (child l t h).1 !! (child l t h).2 = Some (mkLocation (p +:+ "/" +:+ tag') ∅).
Proof.
  intros Hl. pose proof (lookup_lt_Some _ _ _ Hl) as Hlt.
  unfold child, Location_init, counter.
  rewrite (list_lookup_total_correct _ _ _ Hl). cbn [_children].
  destruct (cs !! t) as [n|] eqn:Hn; cbn [fst snd].
  - pose proof (set_counter_at l t (n + 1) h p cs Hl) as Hset. split.
    + rewrite lookup_app_l by (by rewrite set_counter_length). exact Hset.
    + rewrite (list_lookup_total_correct _ _ _ Hset). cbn [_path _children].
      rewrite lookup_insert_eq. cbn [default from_option id].
      by rewrite list_lookup_middle.
  - pose proof (set_counter_at l t 1 h p cs Hl) as Hset. split.
    + rewrite lookup_app_l by (by rewrite set_counter_length). exact Hset.
    + rewrite (list_lookup_total_correct _ _ _ Hset). cbn [_path].
      by rewrite list_lookup_middle.
Qed.

Lemma child_calls_length calls h : length h ≤ length (child_calls calls h).
Proof.
  revert h. induction calls as [|[l t] calls IH]; intros h; [done|].
  cbn [child_calls]. etrans; [|apply IH].
  destruct (child_fresh l t h) as [_ ->]. lia.
Qed.

Lemma occurrences_cons_eq L t calls :
  occurrences L t ((L, t) :: calls) = S (occurrences L t calls).
Proof. unfold occurrences. by rewrite filter_cons_True. Qed.

Lemma occurrences_cons_ne L t c calls :
  c ≠ (L, t) → occurrences L t (c :: calls) = occurrences L t calls.
Proof. intros Hc. unfold occurrences. by rewrite filter_cons_False. Qed.

(** Over any sequence of [child] calls, the counter a Location keeps for a
    tag has grown by the number of calls made on that very Location with
    that tag: calls on other Locations do not touch it. *)
Lemma child_calls_counter calls h L p cs :
  h !! L = Some (mkLocation p cs) →
  ∃ cs', child_calls calls h !! L = Some (mkLocation p cs')
    ∧ ∀ t, cs' !! t = match occurrences L t calls with
                      | 0 => cs !! t
                      | S k => Some (default 0 (cs !! t) + S k)
                      end.
Proof.
  revert h cs. induction calls as [|[l t0] calls IH]; intros h cs HL.
  { exists cs. done. }
  cbn [child_calls]. destruct (decide (l = L)) as [->|Hl].
  - destruct (child_at L t0 h p cs HL) as [H1 _]. cbn zeta in H1.
    destruct (IH _ _ H1) as (cs' & Hcs' & Hcount). exists cs'. split; [done|].
    intros t. rewrite Hcount. destruct (decide (t = t0)) as [->|Ht].
    + rewrite occurrences_cons_eq, lookup_insert_eq. cbn [default from_option id].
      destruct (occurrences L t0 calls), (cs !! t0); cbn; f_equal; lia.
    + rewrite occurrences_cons_ne by congruence.
      by rewrite lookup_insert_ne.
  - pose proof (lookup_lt_Some _ _ _ HL) as Hlt.
    assert (H1 : (child l t0 h).1 !! L = Some (mkLocation p cs)).
    { rewrite child_other; [done|congruence|done]. }
    destruct (IH _ _ H1) as (cs' & Hcs' & Hcount). exists cs'. split; [done|].
    intros t. rewrite Hcount. rewrite occurrences_cons_ne; [done|congruence].
Qed.

(** C2. Take a Location [L] newly made with path [p], and let any sequence
    of [child] calls follow, on [L] and on any other Location (those that
    [L] produced included). If [L.child(t)] has been called [n - 1] times
    among them, the next call [L.child(t)], the [n]th, returns a new
    object, distinct from every existing one, with an empty counter and
    the path [p/t] when [n = 1] and [p/t[n]] when [n >= 2]. The count is
    kept in [L]: after the call [L]'s counter for [t] is [n], its path is
    still [p], its counters for other tags and all other Locations are as
    before. *)
Theorem child_occurrence_index (h0 : heap) (p t : string)
    (calls : list (address * string)) :
  let L := length h0 in
  let h := child_calls calls (Location_init p h0).1 in
  let n := S (occurrences L t calls) in
  let h' := (child L t h).1 in
  let new := (child L t h).2 in
  h' !! new = Some (mkLocation (p +:+ "/" +:+ segment t n) ∅)
  ∧ new = length h ∧ new ≠ L
  ∧ __str__ new h' = p +:+ "/" +:+ segment t n
  ∧ __str__ L h' = p
  ∧ counter L t h' = n
  ∧ (∀ t', t' ≠ t → counter L t' h' = counter L t' h)
  ∧ (∀ a, a ≠ L → a < length h → h' !! a = h !! a).
Proof.
  intros L h n h' new.
  assert (HL0 : (Location_init p h0).1 !! L = Some (mkLocation p ∅)).
  { unfold Location_init. cbn [fst]. by rewrite list_lookup_middle. }
  destruct (child_calls_counter calls _ L p ∅ HL0) as (cs & HL & Hcount).
  fold h in HL.
  pose proof (lookup_lt_Some _ _ _ HL) as Hlt.
  destruct (child_at L t h p cs HL) as [HL' Hnew]. cbn zeta in HL', Hnew.
  fold h' in HL', Hnew. fold new in Hnew.
  destruct (child_fresh L t h) as [Hfresh _]. fold new in Hfresh.
  assert (Hn : match cs !! t with None => 1 | Some m => m + 1 end = n).
  { rewrite Hcount. subst n. destruct (occurrences L t calls); [done|].
    rewrite lookup_empty. cbn. lia. }
  assert (Hseg : match cs !! t with
                 | None => t
                 | Some _ => t +:+ "[" +:+ format_d n +:+ "]"
                 end = segment t n).
  { unfold segment. rewrite Hcount. subst n.
    destruct (occurrences L t calls); [done|]. by rewrite decide_False by lia. }
  rewrite Hn in HL', Hnew. rewrite Hseg in Hnew.
  split; [exact Hnew|]. split; [exact Hfresh|]. split; [lia|].
  split; [unfold __str__; by rewrite (list_lookup_total_correct _ _ _ Hnew)|].
  split; [unfold __str__; by rewrite (list_lookup_total_correct _ _ _ HL')|].
  split; [|split].
  - unfold counter. rewrite (list_lookup_total_correct _ _ _ HL'). cbn [_children].
    by rewrite lookup_insert_eq.
  - intros t' Ht'. unfold counter.
    rewrite (list_lookup_total_correct _ _ _ HL'),
      (list_lookup_total_correct _ _ _ HL). cbn [_children].
    by rewrite lookup_insert_ne.
  - intros a Ha Halt. by apply child_other.
Qed.

(** The calls [L.child('b')], [L.child('b')], a descent from the second
    child, [L.child('c')], then [L.child('b')] again: the paths are
    [a/b], [a/b[2]], [a/b[2]/b], [a/c] and [a/b[3]]. *)
Example child_paths_example :
  let h0 := (Location_init "a" []).1 in
  let h1 := child_calls [(0, "b"); (0, "b"); (2, "b"); (0, "c"); (0, "b")] h0 in
  (λ l, _path l) <$> h1 = ["a"; "a/b"; "a/b[2]"; "a/b[2]/b"; "a/c"; "a/b[3]"].
Proof. vm_compute. reflexivity. Qed.

(** ** The order of the checks *)

Lemma first_failure_cons c cs :
  first_failure (c :: cs) = if chk_passed c then first_failure cs else Some c.
Proof. unfold first_failure. cbn [find]. by destruct (chk_passed c). Qed.

Lemma until_failure_app_failed p1 p2 c :
  first_failure p1 = Some c →
  until_failure (p1 ++ p2) = until_failure p1
  ∧ first_failure (p1 ++ p2) = Some c.
Proof.
  induction p1 as [|d p1 IH]; [done|].
  rewrite first_failure_cons. cbn [app until_failure].
  rewrite first_failure_cons. destruct (chk_passed d); [|done].
  intros H. destruct (IH H) as [-> ->]. done.
Qed.

Lemma until_failure_app_passed p1 p2 :
  first_failure p1 = None →
  until_failure (p1 ++ p2) = p1 ++ until_failure p2
  ∧ first_failure (p1 ++ p2) = first_failure p2.
Proof.
  induction p1 as [|d p1 IH]; [done|].
  rewrite first_failure_cons. cbn [app until_failure].
  rewrite first_failure_cons. destruct (chk_passed d); [|done].
  intros H. destruct (IH H) as [-> ->]. done.
Qed.

Lemma until_failure_passed p : first_failure p = None → until_failure p = p.
Proof.
  intros H. destruct (until_failure_app_passed p [] H) as [Hu _].
  by rewrite !app_nil_r in Hu.
Qed.

(** Steps in sequence make their checks in sequence; the second step has
    to behave only when every check of the first passes. *)
Lemma performs_bind {A B} (m : M A) (k : A → M B) p1 p2 :
  performs m p1 →
  (first_failure p1 = None → ∀ a, performs (k a) p2) →
  performs (mbind m k) (p1 ++ p2).
Proof.
  intros Hm Hk w. unfold mbind. destruct (Hm w) as [Hc Hr].
  destruct (m w) as [w1 r1]. cbn [fst snd] in Hc, Hr.
  destruct (first_failure p1) as [c|] eqn:Hf.
  - destruct Hr as [suffix ->].
    destruct (until_failure_app_failed p1 p2 c Hf) as [-> ->].
    cbn [fst snd]. eauto.
  - destruct Hr as [a ->].
    destruct (until_failure_app_passed p1 p2 Hf) as [-> ->].
    destruct (Hk eq_refl a w1) as [Hc' Hr'].
    split; [|exact Hr'].
    rewrite Hc', Hc, (until_failure_passed p1 Hf). by rewrite app_assoc.
Qed.

Lemma performs_nothing {A} (m : M A) :
  (∀ w, ∃ h a, m w = (mkWorld h (checks w), Ok a)) → performs m [].
Proof.
  intros Hm w. destruct (Hm w) as (h & a & ->). cbn. rewrite app_nil_r. eauto.
Qed.

Lemma performs_mret {A} (a : A) : performs (mret a) [].
Proof. apply performs_nothing. intros [h cs]. by eexists _, _. Qed.

Lemma performs_on_heap {A} (op : heap → heap * A) : performs (on_heap op) [].
Proof.
  apply performs_nothing. intros [h cs]. unfold on_heap. cbn.
  destruct (op h). by eexists _, _.
Qed.

(** A step that only yields a value hands it to what follows. *)
Lemma performs_lift_Ok {A B} (a : A) (k : A → M B) p :
  performs (k a) p → performs (mbind (lift (Ok a)) k) p.
Proof. intros Hk w. exact (Hk w). Qed.

(** One call of [_compare] is one check. *)
Lemma performs_compare self actual expected message location comparator :
  performs (_compare self actual expected message location comparator)
    [mkCheck message actual expected
       (default (_comparator self) comparator actual expected)].
Proof.
  assert (Hgen : ∀ b w,
    let message' := located message location (locations w) in
    checks (mkWorld (locations w) (checks w ++ [mkCheck message actual expected b])) 
      = checks w ++ until_failure [mkCheck message actual expected b]
    ∧ match first_failure [mkCheck message actual expected b] with
      | None => ∃ a, (if b then Ok () else Raise (AssertionError (Some message'))) = Ok a
      | Some c => ∃ suffix,
          (if b then Ok () else Raise (AssertionError (Some message')))
          = Raise (AssertionError (Some (chk_message c +:+ suffix)))
      end).
  { intros b w. rewrite first_failure_cons. cbn. destruct b; cbn.
    - split; eauto.
    - split; [done|]. destruct location as [l|]; cbn; eauto.
      exists "". by rewrite app_empty_r. }
  intros w. destruct comparator as [c|]; apply Hgen.
Qed.

Lemma get_of_key (d : list (string * string)) key :
  key ∈ keys d → is_Some (get d key).
Proof.
  unfold keys. induction d as [|[k v] d IH]; cbn [fmap list_fmap get fst].
  - by intros ?%elem_of_nil.
  - destruct (String.eqb_spec k key) as [->|Hne]; [by eexists|].
    intros [?|?]%elem_of_cons; [congruence | by apply IH].
Qed.

(** Equal sorted key lists are sorted from the same keys. *)
Lemma sorted_eq_elem_of l1 l2 key :
  sorted l1 = sorted l2 → key ∈ l1 → key ∈ l2.
Proof.
  unfold sorted. intros Heq Hin.
  rewrite <- (merge_sort_Permutation String.le l2), <- Heq.
  by rewrite (merge_sort_Permutation String.le l1).
Qed.

Lemma performs_for_each {A} (body : A → M unit) (f : A → check) xs :
  (∀ x, x ∈ xs → performs (body x) [f x]) →
  performs (for_each body xs) (map f xs).
Proof.
  induction xs as [|x xs IH]; intros Hbody; [apply performs_mret|].
  cbn [for_each map].
  apply (performs_bind (body x) _ [f x] (map f xs)).
  - apply Hbody. by left.
  - intros _ _. apply IH. intros y Hy. apply Hbody. by right.
Qed.

(** The attribute checks: the names, then the values in attribute order. *)
Lemma performs_compare_attributes self actual expected location :
  performs (_compare_attributes self actual expected location)
    ([strict_check "Different attribute names"
        (VList (sorted (keys (attrib actual))))
        (VList (sorted (keys (attrib expected))))]
     ++ map (attribute_value_check self actual expected) (keys (attrib actual))).
Proof.
  unfold _compare_attributes. apply performs_bind.
  { apply (performs_compare self _ _ _ location (Some should_be_equal)). }
  rewrite first_failure_cons. cbn [strict_check chk_passed]. unfold should_be_equal.
  case_bool_decide as Hsorted; [|done]. intros _ _.
  injection Hsorted as Hsorted.
  apply performs_for_each. intros key Hkey.
  destruct (get_of_key (attrib actual) key Hkey) as [va Hva].
  destruct (get_of_key (attrib expected) key) as [ve Hve].
  { by eapply sorted_eq_elem_of. }
  unfold getitem, attribute_value_check. rewrite Hva, Hve. cbn [of_option].
  do 2 apply performs_lift_Ok.
  apply (performs_compare self _ _ _ location None).
Qed.

Lemma compare_unfold self actual expected location :
  compare self actual expected location
  = (_compare_tags self actual expected location ;;;
     _compare_attributes self actual expected location ;;;
     _compare_texts self actual expected location ;;;
     _compare_tails self actual expected location ;;;
     _compare_children (compare self) self actual expected location).
Proof. by destruct actual. Qed.

Lemma planned_checks_unfold self actual expected :
  planned_checks self actual expected
  = node_checks self actual expected
    ++ zip_checks (planned_checks self) (children actual) (children expected).
Proof. by destruct actual. Qed.

(** The loop over the pairs of children makes the checks of each pair in
    document order, whichever Location it is given. *)
Lemma performs_for_zip self acts exps location :
  Forall (λ act, ∀ exp loc,
            performs (compare self act exp loc) (planned_checks self act exp)) acts →
  performs
    (for_zip (λ act exp,
                do! l := on_heap (child location (tag act)) in
                compare self act exp (Some l)) acts exps)
    (zip_checks (planned_checks self) acts exps).
Proof.
  intros Hall. revert exps.
  induction Hall as [|act acts Hact _ IH]; intros exps; [apply performs_mret|].
  destruct exps as [|exp exps]; [apply performs_mret|].
  cbn [for_zip zip_checks]. apply performs_bind.
  - apply (performs_bind _ _ [] (planned_checks self act exp));
      [apply performs_on_heap|]. intros _ l. apply Hact.
  - intros _ _. apply IH.
Qed.

Lemma performs_compare_children self actual expected location :
  Forall (λ act, ∀ exp loc,
            performs (compare self act exp loc) (planned_checks self act exp))
         (children actual) →
  performs (_compare_children (compare self) self actual expected location)
    ([strict_check "Different number of child elements"
        (VInt (len actual)) (VInt (len expected))]
     ++ zip_checks (planned_checks self) (children actual) (children expected)).
Proof.
  intros Hall. unfold _compare_children. apply performs_bind.
  { apply (performs_compare self _ _ _ location (Some should_be_equal)). }
  intros _ _.
  apply (performs_bind _ _ [] (zip_checks _ _ _)).
  - destruct location; [apply performs_mret | apply performs_on_heap].
  - intros _ l. by apply performs_for_zip.
Qed.

(** [compare] makes the planned checks in their order and stops at the
    first that fails. *)
Lemma performs_compare_elements self actual :
  ∀ expected location,
    performs (compare self actual expected location)
      (planned_checks self actual expected).
Proof.
  induction actual as [t a x y cs IH] using Element_tree_ind.
  intros expected location.
  rewrite compare_unfold, planned_checks_unfold. unfold node_checks.
  rewrite <- !app_assoc.
  apply performs_bind;
    [apply (performs_compare self _ _ _ location (Some should_be_equal))|].
  intros _ _. rewrite (app_assoc [_] (map _ _)).
  apply performs_bind; [apply performs_compare_attributes|].
  intros _ _.
  apply performs_bind; [apply (performs_compare self _ _ _ location None)|].
  intros _ _.
  apply performs_bind; [apply (performs_compare self _ _ _ location None)|].
  intros _ _.
  by apply performs_compare_children.
Qed.

Lemma until_failure_shape plan c :
  first_failure plan = Some c →
  ∃ passed, until_failure plan = passed ++ [c]
    ∧ Forall (λ d, chk_passed d = true) passed ∧ chk_passed c = false.
Proof.
  induction plan as [|d plan IH]; [done|].
  rewrite first_failure_cons. cbn [until_failure].
  destruct (chk_passed d) eqn:Hd.
  - intros H. destruct (IH H) as (passed & -> & Hall & Hc).
    exists (d :: passed). split; [done|]. split; [by constructor | done].
  - intros [= <-]. exists []. done.
Qed.

(** C1. For every pair of elements, [compare] makes its checks in the
    planned order: tag, attribute names (sorted), attribute values in
    attribute order, own text, own tail, child count, then the checks of
    every pair of children in document order. The checks recorded by a run
    are the planned checks up to and including the first that fails; when
    there is one, it is the last check recorded, all before it passed, and
    the run raises the failure carrying its message; when there is none,
    every planned check is made and the run returns. *)
Theorem compare_checks_in_order (self : ElementComparator)
    (actual expected : Element) (location : option address) (w : world) :
  planned_checks self actual expected
  = [strict_check "Different tag name" (VStr (tag actual)) (VStr (tag expected))]
    ++ [strict_check "Different attribute names"
          (VList (sorted (keys (attrib actual))))
          (VList (sorted (keys (attrib expected))))]
    ++ map (attribute_value_check self actual expected) (keys (attrib actual))
    ++ [mkCheck "Different text"
          (VStr (_text self (text actual))) (VStr (_text self (text expected)))
          (_comparator self (VStr (_text self (text actual)))
             (VStr (_text self (text expected))))]
    ++ [mkCheck "Different tail text"
          (VStr (_text self (tail actual))) (VStr (_text self (tail expected)))
          (_comparator self (VStr (_text self (tail actual)))
             (VStr (_text self (tail expected))))]
    ++ [strict_check "Different number of child elements"
          (VInt (len actual)) (VInt (len expected))]
    ++ zip_checks (planned_checks self) (children actual) (children expected)
  ∧ checks (compare self actual expected location w).1
    = checks w ++ until_failure (planned_checks self actual expected)
  ∧ match first_failure (planned_checks self actual expected) with
    | None =>
        (compare self actual expected location w).2 = Ok ()
        ∧ checks (compare self actual expected location w).1
          = checks w ++ planned_checks self actual expected
    | Some c =>
        (∃ suffix, (compare self actual expected location w).2
                   = Raise (AssertionError (Some (chk_message c +:+ suffix))))
        ∧ ∃ passed, checks (compare self actual expected location w).1
                    = checks w ++ passed ++ [c]
            ∧ Forall (λ d, chk_passed d = true) passed
            ∧ chk_passed c = false
    end.
Proof.
  split.
  { rewrite planned_checks_unfold. unfold node_checks. by rewrite <- !app_assoc. }
  destruct (performs_compare_elements self actual expected location w) as [Hc Hr].
  split; [exact Hc|].
  destruct (first_failure (planned_checks self actual expected)) as [c|] eqn:Hf.
  - split; [exact Hr|].
    destruct (until_failure_shape _ _ Hf) as (passed & Hu & Hall & Hfail).
    exists passed. by rewrite Hc, Hu.
  - destruct Hr as [[] Hr]. split; [exact Hr|].
    by rewrite Hc, until_failure_passed.
Qed.

(** ** Attribute names *)

Lemma sorted_eq_key_set actual expected :
  sorted (keys (attrib actual)) = sorted (keys (attrib expected)) →
  key_set actual = key_set expected.
Proof.
  unfold sorted, key_set. intros Heq. apply list_to_set_perm_L.
  rewrite <- (merge_sort_Permutation String.le (keys (attrib actual))), Heq.
  apply merge_sort_Permutation.
Qed.

Lemma names_check_fails actual expected :
  key_set actual ≠ key_set expected →
  should_be_equal (VList (sorted (keys (attrib actual))))
    (VList (sorted (keys (attrib expected)))) = false.
Proof.
  intros Hne. unfold should_be_equal. apply bool_decide_eq_false.
  intros [= Heq]. by apply Hne, sorted_eq_key_set.
Qed.

(** With different key sets [_compare_attributes] stops at its first
    check. *)
Lemma compare_attributes_names_differ self actual expected location w :
  key_set actual ≠ key_set expected →
  _compare_attributes self actual expected location w
  = (mkWorld (locations w)
       (checks w ++ [mkCheck "Different attribute names"
                       (VList (sorted (keys (attrib actual))))
                       (VList (sorted (keys (attrib expected)))) false]),
     Raise (AssertionError
              (Some (located "Different attribute names" location (locations w))))).
Proof.
  intros Hne. unfold _compare_attributes, mbind, _compare, assert_with.
  cbn [default from_option id]. by rewrite (names_check_fails _ _ Hne).
Qed.

Lemma Forall_until_failure (P : check → Prop) plan :
  Forall P plan → Forall P (until_failure plan).
Proof.
  induction 1 as [|c plan Hc _ IH]; [constructor|].
  cbn [until_failure]. destruct (chk_passed c); by repeat constructor.
Qed.

(** C7. For every pair of elements whose attribute key sets differ, the
    attribute comparison fails with the message [Different attribute
    names] (with the place when there is a location), whatever the
    attribute values are, and makes no value check; so does [compare] when
    the tags agree. That message differs from every value-mismatch message
    [Different value for attribute '<key>']. In every run of the attribute
    comparison the name check is the first check made, and only value
    checks follow it. *)
Theorem different_attribute_names (self : ElementComparator)
    (actual expected : Element) (location : option address) (w : world) :
  key_set actual ≠ key_set expected →
  (_compare_attributes self actual expected location w).2
    = Raise (AssertionError
               (Some (located "Different attribute names" location (locations w))))
  ∧ checks (_compare_attributes self actual expected location w).1
    = checks w ++ [mkCheck "Different attribute names"
                     (VList (sorted (keys (attrib actual))))
                     (VList (sorted (keys (attrib expected)))) false]
  ∧ (tag actual = tag expected →
     (compare self actual expected location w).2
     = Raise (AssertionError
                (Some (located "Different attribute names" location (locations w)))))
  ∧ (∀ key location' h h',
       located "Different attribute names" location h
       ≠ located ("Different value for attribute '" +:+ key +:+ "'") location' h')
  ∧ (∀ actual' expected' location' w',
       ∃ values,
         checks (_compare_attributes self actual' expected' location' w').1
         = checks w' ++ strict_check "Different attribute names"
                          (VList (sorted (keys (attrib actual'))))
                          (VList (sorted (keys (attrib expected')))) :: values
         ∧ Forall (λ c, ∃ key, chk_message c
                               = "Different value for attribute '" +:+ key +:+ "'")
                  values).
Proof.
  intros Hne. split; [|split; [|split; [|split]]].
  - by rewrite compare_attributes_names_differ.
  - by rewrite compare_attributes_names_differ.
  - intros Htag. rewrite compare_unfold. unfold mbind at 1.
    unfold _compare_tags at 1, _compare at 1, assert_with, should_be_equal at 1.
    rewrite Htag, bool_decide_true by done.
    unfold mbind at 1. by rewrite compare_attributes_names_differ.
  - intros key location' h h'. by destruct location, location'.
  - intros actual' expected' location' w'.
    destruct (performs_compare_attributes self actual' expected' location' w')
      as [Hc _].
    rewrite Hc. cbn [app until_failure].
    destruct (chk_passed _).
    + eexists. split; [done|]. apply Forall_until_failure, Forall_map.
      apply Forall_true. intros key. by exists key.
    + exists []. done.
Qed.

Lemma different_attribute_names_witness :
  (compare (mkElementComparator should_be_equal None) item_id item_id_x None fresh).2
  = Raise (AssertionError (Some "Different attribute names")).
Proof.
  refine (proj1 (proj2 (proj2 (different_attribute_names
            (mkElementComparator should_be_equal None) item_id item_id_x None fresh _)))
          _).
  - apply (bool_decide_unpack _). vm_compute. exact I.
  - reflexivity.
Defined.

(** ** Reflexivity *)

Lemma first_failure_None plan :
  Forall (λ c, chk_passed c = true) plan → first_failure plan = None.
Proof.
  induction 1 as [|c plan Hc _ IH]; [done|].
  by rewrite first_failure_cons, Hc.
Qed.

Lemma strict_check_refl message v : chk_passed (strict_check message v v) = true.
Proof. cbn. unfold should_be_equal. by apply bool_decide_eq_true. Qed.

(** Every planned check of an element against itself passes under strict
    equality. *)
Lemma planned_checks_refl normalizer x :
  Forall (λ c, chk_passed c = true)
    (planned_checks (mkElementComparator should_be_equal normalizer) x x).
Proof.
  induction x as [t a x y cs IH] using Element_tree_ind.
  rewrite planned_checks_unfold. unfold node_checks.
  cbn [tag attrib text tail children _comparator].
  rewrite !Forall_app, !Forall_singleton. split_and!.
  - apply strict_check_refl.
  - apply strict_check_refl.
  - apply Forall_map, Forall_true. intros key.
    apply (strict_check_refl "" (of_option _)).
  - apply (strict_check_refl "" (VStr _)).
  - apply (strict_check_refl "" (VStr _)).
  - apply strict_check_refl.
  - induction IH as [|c cs Hc _ IHcs]; [constructor|].
    cbn [zip_checks]. apply Forall_app. by split.
Qed.

(** C8. Structural equality is reflexive: for every parsed element [x],
    [elements_should_be_equal(x, x)] returns without failing, with and
    without whitespace normalisation; so does every comparison of [x] with
    itself under strict equality, at any location and with any
    normaliser. *)
Theorem elements_should_be_equal_reflexive
    (ET_parse : string → option Element) (findall : Element → string → list Element)
    (x : Element) (normalize_whitespace : bool) :
  elements_should_be_equal ET_parse findall (Parsed x) (Parsed x) normalize_whitespace
  = Ok ()
  ∧ (∀ normalizer location w,
       (compare (mkElementComparator should_be_equal normalizer) x x location w).2
       = Ok ()).
Proof.
  assert (Hrefl : ∀ normalizer location w,
    (compare (mkElementComparator should_be_equal normalizer) x x location w).2 = Ok ()).
  { intros normalizer location w.
    destruct (performs_compare_elements
                (mkElementComparator should_be_equal normalizer) x x location w)
      as [_ Hr].
    rewrite (first_failure_None _ (planned_checks_refl normalizer x)) in Hr.
    by destruct Hr as [[] ->]. }
  split; [|exact Hrefl].
  unfold elements_should_be_equal, _compare_elements.
  cbn [get_element String.eqb Ascii.eqb Bool.eqb _get_parent rbind].
  apply Hrefl.
Qed.

(** ** Worked examples *)

(** A mismatch below the root is reported with its place, the second of
    two [b] siblings as [b[2]]. *)
Example second_sibling_is_indexed :
  elements_should_be_equal (λ _, None) (λ _ _, [])
    (Parsed doc_a_b_b) (Parsed doc_a_b_bx) false
  = Raise (AssertionError (Some "Different text at 'a/b[2]'")).
Proof. vm_compute. reflexivity. Qed.

(** A mismatch at the root carries no place. *)
Example root_mismatch_is_bare :
  elements_should_be_equal (λ _, None) (λ _ _, [])
    (Parsed doc_a_X_b_Y_Z) (Parsed doc_a_b_b) false
  = Raise (AssertionError (Some "Different text")).
Proof. vm_compute. reflexivity. Qed.

(** Whitespace decides only when normalisation is off. *)
Example normalization_makes_equal :
  elements_should_be_equal (λ _, None) (λ _ _, [])
    (Parsed doc_spaced) (Parsed doc_plain) true = Ok ()
  ∧ elements_should_be_equal (λ _, None) (λ _ _, [])
      (Parsed doc_spaced) (Parsed doc_plain) false
    = Raise (AssertionError (Some "Different text")).
Proof. split; vm_compute; reflexivity. Qed.

(** Different key sets with equal shared values: the names fail, no value
    is looked at. *)
Example names_before_values :
  checks (compare (mkElementComparator should_be_equal None)
            item_id item_id_x None fresh).1
  = [mkCheck "Different tag name" (VStr "item") (VStr "item") true;
     mkCheck "Different attribute names" (VList ["id"]) (VList ["id"; "x"]) false].
Proof. vm_compute. reflexivity. Qed.

(** * Further properties of the code *)

(** ** The normalised form *)


















(** ** What a comparison decides *)

Lemma first_failure_None_iff plan :
  first_failure plan = None ↔ Forall (λ c, chk_passed c = true) plan.
Proof.
  split; [|apply first_failure_None].
  induction plan as [|c plan IH]; [constructor|].
  rewrite first_failure_cons. destruct (chk_passed c) eqn:Hc; [|done].
  intros H. constructor; [done | by apply IH].
Qed.

Lemma sorted_eq_iff l1 l2 : sorted l1 = sorted l2 ↔ l1 ≡ₚ l2.
Proof.
  unfold sorted. split.
  - intros Heq. rewrite <- (merge_sort_Permutation String.le l1), Heq.
    apply merge_sort_Permutation.
  - intros Hperm. apply (Sorted_unique String.le).
    + apply Sorted_merge_sort; apply _.
    + apply Sorted_merge_sort; apply _.
    + by rewrite !merge_sort_Permutation.
Qed.

Lemma related_unfold self actual expected :
  related self actual expected
  ↔ tag actual = tag expected
    ∧ keys (attrib actual) ≡ₚ keys (attrib expected)
    ∧ (∀ key, key ∈ keys (attrib actual) →
         _comparator self (of_option (get (attrib actual) key))
           (of_option (get (attrib expected) key)) = true)
    ∧ _comparator self (VStr (_text self (text actual)))
        (VStr (_text self (text expected))) = true
    ∧ _comparator self (VStr (_text self (tail actual)))
        (VStr (_text self (tail expected))) = true
    ∧ pairwise (related self) (children actual) (children expected).
Proof. by destruct actual. Qed.

Lemma pairwise_length P acts exps : pairwise P acts exps → length acts = length exps.
Proof.
  revert exps. induction acts as [|a acts IH]; intros [|e exps]; cbn; try done.
  intros [_ H]. f_equal. by apply IH.
Qed.

(** The planned checks all pass exactly for related elements. *)
Lemma planned_checks_pass_iff self actual :
  ∀ expected,
    Forall (λ c, chk_passed c = true) (planned_checks self actual expected)
    ↔ related self actual expected.
Proof.
  induction actual as [t a x y cs IH] using Element_tree_ind.
  intros expected.
  rewrite planned_checks_unfold, related_unfold. unfold node_checks.
  rewrite !Forall_app, !Forall_singleton, Forall_map, Forall_forall.
  cbn [strict_check chk_passed attribute_value_check tag attrib text tail children len].
  unfold should_be_equal. rewrite !bool_decide_eq_true.
  assert (Hkids : ∀ exps,
    (length cs = length exps
     ∧ Forall (λ c, chk_passed c = true) (zip_checks (planned_checks self) cs exps))
    ↔ pairwise (related self) cs exps).
  { induction IH as [|c cs Hc _ IHcs]; intros [|exp exps]; cbn [zip_checks pairwise length].
    - split; [done|]. intros _. split; [done|constructor].
    - split; [by intros [? _] | done].
    - split; [by intros [? _] | done].
    - rewrite Forall_app, Hc, <- IHcs. split.
      + intros ([= Hlen] & Hrel & Hrest). done.
      + intros (Hrel & Hlen & Hrest). split; [by f_equal|done]. }
  rewrite <- Hkids. unfold len. cbn [children]. split.
  - intros ((Htag & Hnames & Hvals & Htext & Htail & Hlen) & Hzip).
    injection Htag as Htag. injection Hnames as Hnames. injection Hlen as Hlen.
    apply (proj1 (sorted_eq_iff _ _)) in Hnames. done.
  - intros (Htag & Hnames & Hvals & Htext & Htail & Hlen & Hzip).
    apply (proj2 (sorted_eq_iff _ _)) in Hnames. rewrite Htag, Hnames, Hlen. done.
Qed.

Lemma compare_Ok_iff self actual expected location w :
  (compare self actual expected location w).2 = Ok ()
  ↔ related self actual expected.
Proof.
  rewrite <- planned_checks_pass_iff, <- first_failure_None_iff.
  destruct (performs_compare_elements self actual expected location w) as [_ Hr].
  destruct (first_failure (planned_checks self actual expected)) as [c|].
  - destruct Hr as [suffix ->]. done.
  - destruct Hr as [[] ->]. done.
Qed.

Lemma compare_elements_Ok_iff ET_parse findall src expected cmp nw :
  _compare_elements ET_parse findall src expected cmp nw = Ok ()
  ↔ ∃ a e, _get_parent ET_parse src = Ok a
           ∧ _get_parent ET_parse expected = Ok e
           ∧ related (comparator_for cmp nw) a e.
Proof.
  unfold _compare_elements.
  change (get_element ET_parse findall src ".") with (_get_parent ET_parse src).
  change (get_element ET_parse findall expected ".")
    with (_get_parent ET_parse expected).
  destruct (_get_parent ET_parse src) as [a|err1]; cbn [rbind].
  - destruct (_get_parent ET_parse expected) as [e|err2]; cbn [rbind].
    + fold (comparator_for cmp nw). rewrite compare_Ok_iff. split.
      * intros H. by exists a, e.
      * by intros (? & ? & [= <-] & [= <-] & H).
    + split; [done | by intros (? & ? & _ & ? & _)].
  - split; [done | by intros (? & ? & ? & _)].
Qed.

(** X4. A comparison succeeds exactly when the two elements are related
    as the comparator relates them: equal tags, the same attribute names,
    an accepted pair of values for every attribute, accepted texts and
    tails (normalised when asked for), as many children, and children
    related pair by pair in document order. This holds for [compare] at
    any location and for both keywords on sources that resolve. *)
Theorem comparison_succeeds_iff_related
    (ET_parse : string → option Element) (findall : Element → string → list Element)
    (comparator : primitive) (normalize_whitespace : bool)
    (actual expected : Element) :
  (∀ location w,
     (compare (comparator_for comparator normalize_whitespace)
        actual expected location w).2 = Ok ()
     ↔ related (comparator_for comparator normalize_whitespace) actual expected)
  ∧ (_compare_elements ET_parse findall (Parsed actual) (Parsed expected)
       comparator normalize_whitespace = Ok ()
     ↔ related (comparator_for comparator normalize_whitespace) actual expected)
  ∧ (related (comparator_for comparator normalize_whitespace) actual expected
     ↔ tag actual = tag expected
       ∧ keys (attrib actual) ≡ₚ keys (attrib expected)
       ∧ (∀ key, key ∈ keys (attrib actual) →
            comparator (of_option (get (attrib actual) key))
              (of_option (get (attrib expected) key)) = true)
       ∧ comparator
           (VStr (_text (comparator_for comparator normalize_whitespace) (text actual)))
           (VStr (_text (comparator_for comparator normalize_whitespace) (text expected)))
         = true
       ∧ comparator
           (VStr (_text (comparator_for comparator normalize_whitespace) (tail actual)))
           (VStr (_text (comparator_for comparator normalize_whitespace) (tail expected)))
         = true
       ∧ pairwise (related (comparator_for comparator normalize_whitespace))
           (children actual) (children expected)).
Proof.
  split; [|split].
  - intros location w. apply compare_Ok_iff.
  - rewrite compare_elements_Ok_iff. cbn [_get_parent]. split.
    + by intros (? & ? & [= <-] & [= <-] & H).
    + intros H. by exists actual, expected.
  - apply related_unfold.
Qed.

(** X5. A comparison raises nothing but its assertion failure: the lookup
    [expected.attrib[key]] is reached only after the attribute names were
    found equal, so it never raises [KeyError]. [_compare_attributes] and
    [compare] return or raise an [AssertionError]; the keywords can also
    raise the parse failure of a source. *)
Theorem comparison_raises_only_assertions
    (ET_parse : string → option Element) (findall : Element → string → list Element)
    (self : ElementComparator) (actual expected : Element)
    (location : option address) (w : world)
    (src1 src2 : source) (comparator : primitive) (normalize_whitespace : bool) :
  ((_compare_attributes self actual expected location w).2 = Ok ()
   ∨ ∃ m, (_compare_attributes self actual expected location w).2
          = Raise (AssertionError (Some m)))
  ∧ ((compare self actual expected location w).2 = Ok ()
     ∨ ∃ m, (compare self actual expected location w).2
            = Raise (AssertionError (Some m)))
  ∧ (_compare_elements ET_parse findall src1 src2 comparator normalize_whitespace
       = Ok ()
     ∨ _compare_elements ET_parse findall src1 src2 comparator normalize_whitespace
       = Raise ParseError
     ∨ ∃ m, _compare_elements ET_parse findall src1 src2 comparator
              normalize_whitespace = Raise (AssertionError (Some m))).
Proof.
  assert (Hperf : ∀ (m : M unit) plan w', performs m plan →
    (m w').2 = Ok () ∨ ∃ msg, (m w').2 = Raise (AssertionError (Some msg))).
  { intros m plan w' Hm. destruct (Hm w') as [_ Hr].
    destruct (first_failure plan) as [c|].
    - destruct Hr as [suffix ->]. right. by eexists.
    - destruct Hr as [[] ->]. by left. }
  split; [|split].
  - eapply Hperf, performs_compare_attributes.
  - eapply Hperf, performs_compare_elements.
  - unfold _compare_elements.
    change (get_element ET_parse findall src1 ".") with (_get_parent ET_parse src1).
    change (get_element ET_parse findall src2 ".") with (_get_parent ET_parse src2).
    destruct (_get_parent ET_parse src1) as [a|err1] eqn:H1; cbn [rbind].
    + destruct (_get_parent ET_parse src2) as [e|err2] eqn:H2; cbn [rbind].
      * destruct (Hperf _ _ fresh (performs_compare_elements
          (mkElementComparator comparator
             (if normalize_whitespace then Some _normalize_whitespace else None))
          a e None)) as [->|[m ->]]; eauto.
      * apply get_parent_not_cardinality in H2 as ->. eauto.
    + apply get_parent_not_cardinality in H1 as ->. eauto.
Qed.

(** ** Strict equality is an equivalence *)

Lemma pairwise_sym (P : Element → Element → Prop) acts :
  Forall (λ a, ∀ e, P a e → P e a) acts →
  ∀ exps, pairwise P acts exps → pairwise P exps acts.
Proof.
  induction 1 as [|a acts Ha _ IH]; intros [|e exps]; cbn [pairwise]; try done.
  intros [Hae Hrest]. split; [by apply Ha | by apply IH].
Qed.

Lemma pairwise_trans (P : Element → Element → Prop) acts :
  Forall (λ a, ∀ b c, P a b → P b c → P a c) acts →
  ∀ mids exps, pairwise P acts mids → pairwise P mids exps → pairwise P acts exps.
Proof.
  induction 1 as [|a acts Ha _ IH]; intros [|b mids] [|c exps];
    cbn [pairwise]; try done.
  intros [Hab Hrest] [Hbc Hrest']. split; [by eapply Ha | by eapply IH].
Qed.

Lemma related_sym normalizer a :
  ∀ e, related (mkElementComparator should_be_equal normalizer) a e →
       related (mkElementComparator should_be_equal normalizer) e a.
Proof.
  induction a as [t d x y cs IH] using Element_tree_ind. intros e.
  rewrite !related_unfold. cbn [_comparator tag attrib text tail children].
  unfold should_be_equal.
  intros (Htag & Hnames & Hvals & Htext & Htail & Hkids).
  apply bool_decide_eq_true in Htext, Htail.
  split; [done|]. split; [done|]. split; [|split; [|split]].
  - intros key Hkey. apply bool_decide_eq_true. symmetry.
    eapply bool_decide_eq_true, Hvals. by rewrite Hnames.
  - by apply bool_decide_eq_true.
  - by apply bool_decide_eq_true.
  - by eapply pairwise_sym.
Qed.

Lemma related_trans normalizer a :
  ∀ b c, related (mkElementComparator should_be_equal normalizer) a b →
         related (mkElementComparator should_be_equal normalizer) b c →
         related (mkElementComparator should_be_equal normalizer) a c.
Proof.
  induction a as [t d x y cs IH] using Element_tree_ind. intros b c.
  rewrite !related_unfold. cbn [_comparator tag attrib text tail children].
  unfold should_be_equal.
  intros (Htag & Hnames & Hvals & Htext & Htail & Hkids)
         (Htag' & Hnames' & Hvals' & Htext' & Htail' & Hkids').
  apply bool_decide_eq_true in Htext, Htail, Htext', Htail'.
  split; [congruence|]. split; [by etrans|]. split; [|split; [|split]].
  - intros key Hkey. apply bool_decide_eq_true.
    etrans; [eapply bool_decide_eq_true, Hvals; done|].
    eapply bool_decide_eq_true, Hvals'. by rewrite <- Hnames.
  - apply bool_decide_eq_true. congruence.
  - apply bool_decide_eq_true. congruence.
  - by eapply pairwise_trans.
Qed.

(** X6. Under strict equality the order of the two sources does not
    matter for success: when [elements_should_be_equal] passes for a source
    and an expected source, it passes with the two exchanged, with and
    without whitespace normalisation. *)
Theorem elements_should_be_equal_symmetric
    (ET_parse : string → option Element) (findall : Element → string → list Element)
    (src expected : source) (normalize_whitespace : bool) :
  elements_should_be_equal ET_parse findall src expected normalize_whitespace = Ok () →
  elements_should_be_equal ET_parse findall expected src normalize_whitespace = Ok ().
Proof.
  unfold elements_should_be_equal. rewrite !compare_elements_Ok_iff.
  intros (a & e & Ha & He & Hrel). exists e, a.
  split; [done|]. split; [done|]. by apply related_sym.
Qed.

Lemma elements_should_be_equal_symmetric_witness :
  elements_should_be_equal (λ _, None) (λ _ _, [])
    (Parsed doc_plain) (Parsed doc_spaced) true = Ok ().
Proof.
  refine (elements_should_be_equal_symmetric (λ _, None) (λ _ _, [])
            (Parsed doc_spaced) (Parsed doc_plain) true _).
  vm_compute. reflexivity.
Defined.

(** X7. Under strict equality success is transitive: when
    [elements_should_be_equal] passes for a first and a second source and
    for the second and a third, it passes for the first and the third. *)
Theorem elements_should_be_equal_transitive
    (ET_parse : string → option Element) (findall : Element → string → list Element)
    (src1 src2 src3 : source) (normalize_whitespace : bool) :
  elements_should_be_equal ET_parse findall src1 src2 normalize_whitespace = Ok () →
  elements_should_be_equal ET_parse findall src2 src3 normalize_whitespace = Ok () →
  elements_should_be_equal ET_parse findall src1 src3 normalize_whitespace = Ok ().
Proof.
  unfold elements_should_be_equal. rewrite !compare_elements_Ok_iff.
  intros (a & b & Ha & Hb & Hab) (b' & c & Hb' & Hc & Hbc).
  rewrite Hb in Hb'. injection Hb' as <-.
  exists a, c. split; [done|]. split; [done|]. by eapply related_trans.
Qed.

Lemma elements_should_be_equal_transitive_witness :
  elements_should_be_equal (λ _, None) (λ _ _, [])
    (Parsed doc_spaced) (Parsed doc_spaced) true = Ok ().
Proof.
  refine (elements_should_be_equal_transitive (λ _, None) (λ _ _, [])
            (Parsed doc_spaced) (Parsed doc_plain) (Parsed doc_spaced) true _ _);
    vm_compute; reflexivity.
Defined.

(** ** Text keywords *)

Lemma get_element_text_of ET_parse findall src xpath nw e :
  get_element ET_parse findall src xpath = Ok e →
  get_element_text ET_parse findall src xpath nw = Ok (element_text nw e).
Proof.
  intros He. unfold get_element_text, element_text. rewrite He. cbn [rbind].
  by rewrite join_yield_texts, app_empty_r.
Qed.




(** ** Attribute keywords *)

(** X10. For an attribute the selected element has, with value [v]:
    [get_element_attribute] returns [v] whatever the default is;
    [element_attribute_should_be] passes exactly when the expected value
    is [v]; [element_attribute_should_match] gives the matcher's verdict on
    [v] and the pattern and never reports the attribute as missing, also
    when [v] is the empty string. *)
Theorem attribute_assertions_on_present
    (ET_parse : string → option Element) (findall : Element → string → list Element)
    (src : source) (xpath name : string) (e : Element) (v : string) :
  get_element ET_parse findall src xpath = Ok e →
  get (attrib e) name = Some v →
  (∀ default, get_element_attribute ET_parse findall src name xpath default
              = Ok (VStr v))
  ∧ (∀ expected message,
       element_attribute_should_be ET_parse findall src name expected xpath message
       = if bool_decide (expected = VStr v) then Ok ()
         else Raise (AssertionError message))
  ∧ (∀ matches pattern message,
       element_attribute_should_match ET_parse findall matches src name
         (VStr pattern) xpath message
       = if matches v pattern then Ok () else Raise (AssertionError message)).
Proof.
  intros He Hv.
  assert (Hattr : ∀ default,
    get_element_attribute ET_parse findall src name xpath default = Ok (VStr v)).
  { intros default. unfold get_element_attribute. rewrite He. cbn [rbind].
    by rewrite Hv. }
  split; [exact Hattr|]. split.
  - intros expected message. unfold element_attribute_should_be.
    rewrite Hattr. cbn [rbind]. unfold assert_with, should_be_equal.
    do 2 case_bool_decide; congruence.
  - intros matches pattern message. unfold element_attribute_should_match.
    rewrite Hattr. done.
Qed.

Lemma attribute_assertions_on_present_witness :
  element_attribute_should_be (λ _, None) (λ _ _, []) (Parsed item_id)
    "id" (VStr "1") "." None = Ok ().
Proof.
  refine (proj1 (proj2 (attribute_assertions_on_present (λ _, None) (λ _ _, [])
            (Parsed item_id) "." "id" item_id "1" _ _)) (VStr "1") None);
    reflexivity.
Defined.

(** ** What the declaration pattern removes *)

Lemma remove_prefix_Some p s r : remove_prefix p s = Some r → s = p +:+ r.
Proof.
  revert s. induction p as [|a p IH]; intros s; cbn [remove_prefix].
  - by intros [= ->].
  - destruct s as [|b s]; [done|].
    destruct (Ascii.eqb_spec a b) as [->|]; [|done].
    intros H. rewrite app_cons. f_equal. by apply IH.
Qed.

Lemma first_line_Some s l rest :
  first_line s = Some (l, rest) →
  s = l +:+ newline +:+ rest ∧ no_newline l = true.
Proof.
  revert l. induction s as [|c s IH]; intros l; cbn [first_line]; [done|].
  destruct (Ascii.eqb_spec c "010"%char) as [->|Hc].
  - by intros [= <- <-].
  - destruct (first_line s) as [[l' rest']|]; [|done].
    intros [= <- <-]. destruct (IH l' eq_refl) as [-> Hl].
    split; [done|]. cbn [no_newline]. rewrite Hl.
    apply Ascii.eqb_neq in Hc. by rewrite Hc.
Qed.

Lemma ends_with_Some x l : ends_with x l = true → ∃ m, l = m +:+ x.
Proof.
  induction l as [|c l IH]; cbn [ends_with].
  - rewrite orb_false_r. intros ->%String.eqb_eq. by exists "".
  - intros [->%String.eqb_eq | H]%orb_true_iff; [by exists ""|].
    destruct (IH H) as [m ->]. by exists (String c m).
Qed.

(** X11. [element_to_string] never alters the serialisation except by
    dropping a declaration line: its result is either the serialisation
    itself or, when the serialisation begins with [<?xml ], continues
    without newline to [?>] and a newline, exactly what follows that
    newline. *)
Theorem element_to_string_exact
    (ET_parse : string → option Element) (findall : Element → string → list Element)
    (tostring : Element → string) (src : source) (e : Element) :
  get_element ET_parse findall src "." = Ok e →
  element_to_string ET_parse findall tostring src = Ok (tostring e)
  ∨ ∃ mid body,
      no_newline mid = true
      ∧ tostring e = "<?xml " +:+ mid +:+ "?>" +:+ newline +:+ body
      ∧ element_to_string ET_parse findall tostring src = Ok body.
Proof.
  intros He. unfold element_to_string. rewrite He. cbn [rbind].
  unfold _xml_declaration_sub.
  destruct (remove_prefix "<?xml " (tostring e)) as [r|] eqn:Hp; [|by left].
  destruct (first_line r) as [[l rest]|] eqn:Hl; [|by left].
  destruct (ends_with "?>" l) eqn:Hends; [|by left].
  right. apply remove_prefix_Some in Hp.
  apply first_line_Some in Hl as [-> Hno].
  apply ends_with_Some in Hends as [mid ->].
  exists mid, rest. rewrite no_newline_app in Hno.
  apply andb_true_iff in Hno as [Hmid _].
  split; [done|]. split; [|done].
  by rewrite Hp, !app_assoc'.
Qed.

Lemma element_to_string_exact_witness :
  element_to_string (λ _, None) (λ _ _, []) (λ _, "<a/>") (Parsed doc_plain) = Ok "<a/>"
  ∨ ∃ mid body,
      no_newline mid = true
      ∧ "<a/>" = "<?xml " +:+ mid +:+ "?>" +:+ newline +:+ body
      ∧ element_to_string (λ _, None) (λ _ _, []) (λ _, "<a/>") (Parsed doc_plain)
        = Ok body.
Proof.
  refine (element_to_string_exact (λ _, None) (λ _ _, []) (λ _, "<a/>")
            (Parsed doc_plain) doc_plain _).
  reflexivity.
Defined.

(** ** Checks that leave the store alone *)

Lemma mbind_assoc {A B C} (m : M A) (f : A → M B) (g : B → M C) w :
  mbind (mbind m f) g w = mbind m (λ a, mbind (f a) g) w.
Proof. unfold mbind. by destruct (m w) as [w1 [a|err]]. Qed.

Lemma checks_then_nil {B} (k : M B) location : checks_then k [] location k.
Proof. intros [h cs]. by exists cs. Qed.

Lemma checks_then_ext {B} (m m' k : M B) plan location :
  (∀ w, m w = m' w) → checks_then m' plan location k → checks_then m plan location k.
Proof.
  intros Hext Hm w. destruct (Hm w) as [cs Hcs]. exists cs. by rewrite Hext.
Qed.

Lemma checks_then_app {B} (m m' k : M B) p1 p2 location :
  checks_then m p1 location m' →
  (first_failure p1 = None → checks_then m' p2 location k) →
  checks_then m (p1 ++ p2) location k.
Proof.
  intros Hm Hm' w. destruct (Hm w) as [cs Hcs].
  destruct (first_failure p1) as [c|] eqn:Hf.
  - destruct (until_failure_app_failed p1 p2 c Hf) as [_ ->]. by exists cs.
  - destruct (until_failure_app_passed p1 p2 Hf) as [_ ->].
    destruct (Hm' eq_refl (mkWorld (locations w) cs)) as [cs' Hcs'].
    exists cs'. rewrite Hcs. exact Hcs'.
Qed.

Lemma checks_then_compare {B} self actual expected message location comparator
    (k : M B) :
  checks_then
    (mbind (_compare self actual expected message location comparator) (λ _, k))
    [mkCheck message actual expected
       (default (_comparator self) comparator actual expected)]
    location k.
Proof.
  intros w.
  exists (checks w ++ [mkCheck message actual expected
                         (default (_comparator self) comparator actual expected)]).
  rewrite first_failure_cons. cbn [chk_passed chk_message first_failure find].
  unfold mbind, _compare, assert_with, located.
  destruct comparator as [c|]; cbn [default from_option id].
  - by destruct (c actual expected).
  - by destruct (_comparator self actual expected).
Qed.

Lemma checks_then_for_each {A B} (body : A → M unit) (f : A → check) xs
    location (k : M B) :
  (∀ x (k' : M B), x ∈ xs →
     checks_then (mbind (body x) (λ _, k')) [f x] location k') →
  checks_then (mbind (for_each body xs) (λ _, k)) (map f xs) location k.
Proof.
  induction xs as [|x xs IH]; intros Hbody.
  - apply checks_then_nil.
  - cbn [for_each map].
    eapply checks_then_ext; [intros w; apply mbind_assoc|].
    apply (checks_then_app _ (mbind (for_each body xs) (λ _, k)) _ [f x]).
    + apply Hbody. by left.
    + intros _. apply IH. intros y k' Hy. apply Hbody. by right.
Qed.

Lemma checks_then_compare_attributes {B} self actual expected location (k : M B) :
  checks_then
    (mbind (_compare_attributes self actual expected location) (λ _, k))
    ([strict_check "Different attribute names"
        (VList (sorted (keys (attrib actual))))
        (VList (sorted (keys (attrib expected))))]
     ++ map (attribute_value_check self actual expected) (keys (attrib actual)))
    location k.
Proof.
  unfold _compare_attributes.
  eapply checks_then_ext; [intros w; apply mbind_assoc|].
  eapply checks_then_app.
  { apply (checks_then_compare self _ _ _ location (Some should_be_equal)). }
  rewrite first_failure_cons. cbn [strict_check chk_passed default from_option id].
  unfold should_be_equal.
  case_bool_decide as Hsorted; [|done]. intros _.
  injection Hsorted as Hsorted.
  apply checks_then_for_each. intros key k' Hkey.
  destruct (get_of_key (attrib actual) key Hkey) as [va Hva].
  destruct (get_of_key (attrib expected) key) as [ve Hve].
  { by eapply sorted_eq_elem_of. }
  unfold getitem, attribute_value_check. rewrite Hva, Hve. cbn [of_option].
  apply (checks_then_compare self (VStr va) (VStr ve) _ location None k').
Qed.

(** The checks of the node come first and leave the store alone; then the
    pairs of children are compared. *)
Lemma checks_then_compare_node self actual expected location :
  checks_then (compare self actual expected location)
    (node_checks self actual expected) location
    (compare_pairs self actual expected location).
Proof.
  rewrite compare_unfold. unfold node_checks.
  eapply checks_then_app;
    [apply (checks_then_compare self _ _ _ location (Some should_be_equal))|].
  intros _. rewrite (app_assoc [_] (map _ _)).
  eapply checks_then_app; [apply checks_then_compare_attributes|].
  intros _.
  eapply checks_then_app; [apply (checks_then_compare self _ _ _ location None)|].
  intros _.
  eapply checks_then_app; [apply (checks_then_compare self _ _ _ location None)|].
  intros _.
  apply (checks_then_compare self _ _ _ location (Some should_be_equal)).
Qed.

(** ** The store during a comparison *)

Lemma frame_refl location h : frame location h h.
Proof. by repeat split. Qed.

Lemma frame_trans location h1 h2 h3 :
  frame location h1 h2 → frame location h2 h3 → frame location h1 h3.
Proof.
  intros (Hlen & Hkeep & Hpath) (Hlen' & Hkeep' & Hpath').
  split; [lia|]. split.
  - intros x Hx Hne. rewrite Hkeep' by (lia || done). by apply Hkeep.
  - intros x Hx. rewrite Hpath' by lia. by apply Hpath.
Qed.

(** What happens at a newer address is not seen from an older store. *)
Lemma frame_step location h h1 h2 n :
  frame location h h1 → frame (Some n) h1 h2 → length h ≤ n →
  frame location h h2.
Proof.
  intros (Hlen & Hkeep & Hpath) (Hlen' & Hkeep' & Hpath') Hn.
  split; [lia|]. split.
  - intros x Hx Hne. rewrite Hkeep'; [by apply Hkeep | lia |].
    intros [= <-]. lia.
  - intros x Hx. rewrite Hpath' by lia. by apply Hpath.
Qed.

Lemma frame_alloc h o h' :
  frame (Some (length h)) (h ++ [o]) h' → frame None h h'.
Proof.
  intros (Hlen & Hkeep & Hpath). rewrite length_app in Hlen, Hkeep, Hpath.
  cbn [length] in *. split; [lia|]. split.
  - intros x Hx _. rewrite Hkeep; [by apply lookup_app_l | lia |].
    intros [= <-]. lia.
  - intros x Hx. rewrite Hpath by lia. by rewrite lookup_app_l.
Qed.

(** [child] changes nothing but the counter of its own Location. *)
Lemma child_frame l t h : frame (Some l) h (child l t h).1.
Proof.
  destruct (child_fresh l t h) as [_ Hlen]. split; [lia|]. split.
  - intros x Hx Hne. apply child_other; [congruence | done].
  - intros x Hx. destruct (decide (x = l)) as [->|Hne].
    + destruct (lookup_lt_is_Some_2 h l Hx) as [[p cs] Hl].
      destruct (child_at l t h p cs Hl) as [-> _]. by rewrite Hl.
    + by rewrite child_other.
Qed.

Lemma on_heap_eq {A} (op : heap → heap * A) w :
  on_heap op w = (mkWorld (op (locations w)).1 (checks w), Ok (op (locations w)).2).
Proof. unfold on_heap. by destruct (op (locations w)). Qed.

Lemma count_tag_cons t tag seen :
  count_tag t (tag :: seen)
  = if decide (tag = t) then S (count_tag t seen) else count_tag t seen.
Proof.
  unfold count_tag. destruct (decide (tag = t)) as [->|Hne].
  - by rewrite filter_cons_True.
  - by rewrite filter_cons_False.
Qed.

(** The path [child] gives the new Location is the path of the next child
    with that tag, and the counter has then counted that child too. *)
Lemma child_counted l tag h p cs seen :
  h !! l = Some (mkLocation p cs) → counted cs seen →
  ∃ cs', (child l tag h).1 !! l = Some (mkLocation p cs')
    ∧ counted cs' (tag :: seen)
    ∧ (child l tag h).1 !! (child l tag h).2
      = Some (mkLocation (child_path p seen tag) ∅).
Proof.
  intros Hl Hcs. destruct (child_at l tag h p cs Hl) as [Hl' Hnew].
  cbn zeta in Hl', Hnew. eexists. split; [exact Hl'|]. split.
  - intros t. rewrite count_tag_cons. destruct (decide (tag = t)) as [<-|Hne].
    + rewrite lookup_insert_eq, (Hcs tag).
      destruct (count_tag tag seen); f_equal; lia.
    + by rewrite lookup_insert_ne.
  - rewrite Hnew. unfold child_path, segment. rewrite (Hcs tag).
    destruct (count_tag tag seen) as [|k]; [done|].
    rewrite decide_False by lia. by rewrite Nat.add_1_r.
Qed.

Lemma failure_message_unfold self actual expected path :
  failure_message self actual expected path
  = match first_failure (node_checks self actual expected) with
    | Some c => Some (place (chk_message c) path)
    | None =>
        zip_failures (λ act exp p, failure_message self act exp (Some p))
          (default (tag actual) path) [] (children actual) (children expected)
    end.
Proof. by destruct actual. Qed.

(** The loop over the pairs of children, run on the Location [L] that has
    counted the children [seen] so far. *)
Lemma for_zip_exact self acts :
  Forall (compare_exact self) acts →
  ∀ exps seen w L,
    let loop := for_zip (λ act exp,
                  do! l := on_heap (child L (tag act)) in
                  compare self act exp (Some l)) acts exps in
    frame (Some L) (locations w) (locations (loop w).1)
    ∧ (∀ p cs, locations w !! L = Some (mkLocation p cs) → counted cs seen →
       (loop w).2
       = outcome (zip_failures (λ act exp p', failure_message self act exp (Some p'))
                    p seen acts exps)).
Proof.
  induction 1 as [|act acts Hact _ IH]; intros exps seen w L; cbn zeta.
  { split; [apply frame_refl | done]. }
  destruct exps as [|exp exps]; [split; [apply frame_refl | done]|].
  set (h := locations w).
  set (w1 := mkWorld (child L (tag act) h).1 (checks w)).
  set (body := λ act exp, do! l := on_heap (child L (tag act)) in
                          compare self act exp (Some l)).
  assert (Hloop : for_zip body (act :: acts) (exp :: exps) w
                  = match compare self act exp (Some (child L (tag act) h).2) w1 with
                    | (w2, Ok _) => for_zip body acts exps w2
                    | (w2, Raise e) => (w2, Raise e)
                    end).
  { cbn [for_zip]. unfold body at 1, mbind. by rewrite on_heap_eq. }
  rewrite Hloop. clear Hloop. cbn [zip_failures]. fold body in IH.
  destruct (Hact exp (Some (child L (tag act) h).2) w1) as (Hframe & _ & Hres).
  destruct (child_fresh L (tag act) h) as [Hnew Hlen].
  pose proof (child_frame L (tag act) h) as Hchild.
  assert (Hstep : frame (Some L) h
            (locations (compare self act exp (Some (child L (tag act) h).2) w1).1)).
  { eapply frame_step; [exact Hchild | exact Hframe | lia]. }
  destruct (compare self act exp (Some (child L (tag act) h).2) w1)
    as [w2 [[]|err]] eqn:Hcmp; cbn [fst snd] in *.
  - destruct (IH exps (tag act :: seen) w2 L) as [Hrest Hrestres]. cbn zeta in *.
    split; [by eapply frame_trans|].
    intros p cs HL Hcs.
    destruct (child_counted L (tag act) h p cs seen HL Hcs)
      as (cs' & HL' & Hcs' & Hnewloc).
    specialize (Hres _ _ eq_refl Hnewloc).
    destruct (failure_message self act exp (Some (child_path p seen (tag act))));
      [done|].
    apply (Hrestres p cs'); [|done].
    destruct Hframe as (_ & Hkeep & _). rewrite Hkeep; [done| |].
    + apply lookup_lt_Some in HL'. exact HL'.
    + intros [= Heq]. apply lookup_lt_Some in HL. subst h. lia.
  - split; [done|].
    intros p cs HL Hcs.
    destruct (child_counted L (tag act) h p cs seen HL Hcs)
      as (cs' & HL' & Hcs' & Hnewloc).
    specialize (Hres _ _ eq_refl Hnewloc).
    by destruct (failure_message self act exp (Some (child_path p seen (tag act)))).
Qed.

Lemma counted_empty : counted ∅ [].
Proof. intros t. by rewrite lookup_empty. Qed.

Lemma located_place message l p h :
  h !! l = Some (mkLocation p ∅) →
  located message (Some l) h = place message (Some p).
Proof.
  intros Hl. unfold located, place, __str__.
  by rewrite (list_lookup_total_correct _ _ _ Hl).
Qed.

(** [compare] fails with the message [failure_message] computes and keeps
    its hands off every Location but its own. *)
Lemma compare_is_exact self actual : compare_exact self actual.
Proof.
  induction actual as [t a x y cs IH] using Element_tree_ind.
  intros expected location w.
  set (actual := mkElement t a x y cs).
  destruct (checks_then_compare_node self actual expected location w) as [cs0 Hnode].
  pose proof (failure_message_unfold self actual expected) as Hunfold.
  destruct (first_failure (node_checks self actual expected)) as [c|].
  { rewrite Hnode. cbn [fst snd locations]. split; [apply frame_refl|]. split.
    - intros ->. by rewrite Hunfold.
    - intros l p -> Hl. by rewrite Hunfold, (located_place _ _ _ _ Hl). }
  rewrite Hnode. unfold compare_pairs, mbind. cbn [children tag actual].
  destruct location as [l|].
  - cbn [mret locations].
    destruct (for_zip_exact self cs IH (children expected) []
                (mkWorld (locations w) cs0) l) as [Hframe Hres].
    cbn zeta in Hframe, Hres. cbn [locations] in Hframe, Hres.
    split; [exact Hframe|]. split; [done|].
    intros l' p [= <-] Hl. rewrite Hunfold. apply (Hres p ∅ Hl counted_empty).
  - rewrite on_heap_eq. cbn [fst snd locations checks Location_init].
    destruct (for_zip_exact self cs IH (children expected) []
                (mkWorld (locations w ++ [mkLocation t ∅]) cs0)
                (length (locations w))) as [Hframe Hres].
    cbn zeta in Hframe, Hres. cbn [locations] in Hframe, Hres.
    split; [by eapply frame_alloc|]. split; [|done].
    intros _. rewrite Hunfold. apply (Hres t ∅); [|apply counted_empty].
    by rewrite list_lookup_middle.
Qed.

(** X12. The message a comparison fails with names the place of the first
    failing check, and it can be computed from the two elements alone. A
    check of the compared roots fails with its bare message; a check
    further down fails with the message followed by [ at '<path>'], where
    the path starts with the tag of the actual root and has one segment
    per descent: the child's tag, with [[n]] appended for the [n]th child
    with that tag under the same parent ([n >= 2]). A comparison started
    at a fresh Location with path [p] reports every place under [p]. *)
Theorem comparison_fails_at_place
    (ET_parse : string → option Element) (findall : Element → string → list Element)
    (self : ElementComparator) (comparator : primitive) (normalize_whitespace : bool)
    (actual expected : Element) (w : world) :
  (compare self actual expected None w).2
    = outcome (failure_message self actual expected None)
  ∧ (∀ l p, locations w !! l = Some (mkLocation p ∅) →
       (compare self actual expected (Some l) w).2
       = outcome (failure_message self actual expected (Some p)))
  ∧ _compare_elements ET_parse findall (Parsed actual) (Parsed expected)
      comparator normalize_whitespace
    = outcome (failure_message (comparator_for comparator normalize_whitespace)
                 actual expected None)
  ∧ (∀ path,
       failure_message self actual expected path
       = match first_failure (node_checks self actual expected) with
         | Some c => Some (place (chk_message c) path)
         | None =>
             zip_failures (λ act exp p, failure_message self act exp (Some p))
               (default (tag actual) path) [] (children actual) (children expected)
         end).
Proof.
  split; [|split; [|split]].
  - by apply (compare_is_exact self actual expected None w).
  - intros l p Hl. by eapply (compare_is_exact self actual expected (Some l) w).
  - unfold _compare_elements.
    cbn [get_element String.eqb Ascii.eqb Bool.eqb _get_parent rbind].
    by apply (compare_is_exact (comparator_for comparator normalize_whitespace)
                actual expected None fresh).
  - apply failure_message_unfold.
Qed.

Lemma comparison_fails_at_place_witness :
  (compare (mkElementComparator should_be_equal None) doc_a_b_b doc_a_b_bx (Some 0)
     (mkWorld [mkLocation "root" ∅] [])).2
  = Raise (AssertionError (Some "Different text at 'root/b[2]'")).
Proof.
  refine (proj1 (proj2 (comparison_fails_at_place (λ _, None) (λ _ _, [])
            (mkElementComparator should_be_equal None) should_be_equal false
            doc_a_b_b doc_a_b_bx (mkWorld [mkLocation "root" ∅] []))) 0 "root" _).
  reflexivity.
Defined.

(** X13. A comparison keeps the Location objects apart: [compare] never
    removes a Location, never changes the path of an existing one, and
    leaves every existing Location other than the one it was handed
    exactly as it was (a comparison started without a location changes
    none at all); whether it returns or raises. *)
Theorem comparison_keeps_locations (self : ElementComparator)
    (actual expected : Element) (location : option address) (w : world) :
  length (locations w)
    ≤ length (locations (compare self actual expected location w).1)
  ∧ (∀ x, x < length (locations w) → location ≠ Some x →
       locations (compare self actual expected location w).1 !! x
       = locations w !! x)
  ∧ (∀ x, x < length (locations w) →
       _path <$> locations (compare self actual expected location w).1 !! x
       = _path <$> locations w !! x).
Proof. apply (compare_is_exact self actual expected location w). Qed.

Lemma comparison_keeps_locations_witness :
  locations (compare (mkElementComparator should_be_equal None) doc_a_b_b doc_a_b_bx
               (Some 1) (mkWorld [mkLocation "x" ∅; mkLocation "root" ∅] [])).1 !! 0
  = Some (mkLocation "x" ∅).
Proof.
  refine (proj1 (proj2 (comparison_keeps_locations
            (mkElementComparator should_be_equal None) doc_a_b_b doc_a_b_bx
            (Some 1) (mkWorld [mkLocation "x" ∅; mkLocation "root" ∅] []))) 0 _ _).
  - cbn. lia.
  - discriminate.
Defined.

(** ** Sibling paths are unambiguous *)

Lemma format_d_inj n m : format_d n = format_d m → n = m.
Proof.
  unfold format_d. intros Heq.
  assert (Hnonnil : ∀ k, Nat.to_uint k ≠ Decimal.Nil).
  { intros k. rewrite <- (Unsigned.of_to k) at 1. rewrite Unsigned.to_of.
    apply unorm_nonnil. }
  apply Unsigned.to_uint_inj.
  pose proof (NilZero.usu _ (Hnonnil n)) as Hn.
  pose proof (NilZero.usu _ (Hnonnil m)) as Hm.
  rewrite Heq in Hn. congruence.
Qed.

Lemma no_bracket_app_bracket s r : no_bracket (s +:+ "[" +:+ r) = false.
Proof.
  induction s as [|c s IH]; [done|].
  rewrite app_cons. cbn [no_bracket]. rewrite IH. apply andb_false_r.
Qed.

Lemma split_at_bracket s s' r r' :
  no_bracket s = true → no_bracket s' = true →
  s +:+ "[" +:+ r = s' +:+ "[" +:+ r' → s = s' ∧ r = r'.
Proof.
  change ("[" +:+ r) with (String "[" r). change ("[" +:+ r') with (String "[" r').
  revert s'. induction s as [|c s IH]; intros [|c' s'] Hs Hs'.
  - change (String "[" r = String "[" r' → "" = "" ∧ r = r'). by intros [= ->].
  - change (String "[" r = String c' (s' +:+ String "[" r') →
            "" = String c' s' ∧ r = r').
    intros [= <- _]. done.
  - change (String c (s +:+ String "[" r) = String "[" r' →
            String c s = "" ∧ r = r').
    intros [= -> _]. done.
  - rewrite (app_cons c s), (app_cons c' s'). intros [= <- Heq].
    cbn [no_bracket] in Hs, Hs'.
    apply andb_true_iff in Hs as [_ Hs]. apply andb_true_iff in Hs' as [_ Hs'].
    destruct (IH s' Hs Hs' Heq) as [-> ->]. done.
Qed.

Lemma app_bracket_inj d d' : d +:+ "]" = d' +:+ "]" → d = d'.
Proof.
  revert d'. induction d as [|c d IH]; intros [|c' d']; [done|..].
  - change (String "]" "" = String c' (d' +:+ "]") → "" = String c' d').
    intros [= _ H]. by destruct d'.
  - change (String c (d +:+ "]") = String "]" "" → String c d = "").
    intros [= _ H]. by destruct d.
  - rewrite !app_cons. intros [= <- H]. f_equal. by apply IH.
Qed.

(** Bracket-free tags and their indices can be read back from a segment. *)
Lemma segment_inj t t' n n' :
  no_bracket t = true → no_bracket t' = true →
  segment t (S n) = segment t' (S n') → t = t' ∧ n = n'.
Proof.
  intros Ht Ht'. unfold segment.
  destruct (decide (S n = 1)) as [Hn|Hn], (decide (S n' = 1)) as [Hn'|Hn'].
  - intros ->. split; [done | lia].
  - intros ->. by rewrite no_bracket_app_bracket in Ht.
  - intros <-. by rewrite no_bracket_app_bracket in Ht'.
  - intros Heq. apply split_at_bracket in Heq as [-> Heq]; [|done..].
    apply app_bracket_inj, format_d_inj in Heq. split; [done | lia].
Qed.

Lemma count_tag_cons_le t tag seen : count_tag t seen ≤ count_tag t (tag :: seen).
Proof. rewrite count_tag_cons. destruct (decide (tag = t)); lia. Qed.

Lemma elem_of_paths_from parent seen tags path :
  path ∈ paths_from parent seen tags →
  ∃ t n, t ∈ tags ∧ count_tag t seen ≤ n
         ∧ path = parent +:+ "/" +:+ segment t (S n).
Proof.
  revert seen. induction tags as [|t tags IH]; intros seen; cbn [paths_from].
  - by intros ?%elem_of_nil.
  - intros [->|Hin]%elem_of_cons.
    + exists t, (count_tag t seen). split; [by left|]. done.
    + destruct (IH _ Hin) as (t' & n & Ht' & Hn & ->).
      exists t', n. split; [by right|]. split; [|done].
      etrans; [apply (count_tag_cons_le t' t seen) | done].
Qed.

Lemma NoDup_paths_from parent seen tags :
  Forall (λ t, no_bracket t = true) tags → NoDup (paths_from parent seen tags).
Proof.
  intros Htags. revert seen.
  induction Htags as [|t tags Ht Htags IH]; intros seen; cbn [paths_from].
  { constructor. }
  constructor; [|apply IH].
  intros (t' & n & Ht' & Hn & Heq)%elem_of_paths_from.
  unfold child_path in Heq. apply String.app_inj, String.app_inj in Heq.
  apply segment_inj in Heq as [<- <-]; [|done|].
  - rewrite count_tag_cons, decide_True in Hn by done. lia.
  - by eapply Forall_forall in Htags.
Qed.

Lemma child_calls_other L tags h x :
  x < length h → x ≠ L →
  child_calls (map (λ t, (L, t)) tags) h !! x = h !! x.
Proof.
  revert h. induction tags as [|t tags IH]; intros h Hx Hne; [done|].
  cbn [map child_calls]. destruct (child_fresh L t h) as [_ Hlen].
  rewrite IH by (lia || done). by apply child_other.
Qed.

(** The Locations that calls of [child] on one Location leave in the store
    carry the paths of the children, in order. *)
Lemma child_calls_paths L tags : ∀ h p cs seen,
  h !! L = Some (mkLocation p cs) → counted cs seen →
  length (child_calls (map (λ t, (L, t)) tags) h) = length h + length tags
  ∧ _path <$> drop (length h) (child_calls (map (λ t, (L, t)) tags) h)
    = paths_from p seen tags.
Proof.
  induction tags as [|t tags IH]; intros h p cs seen HL Hcs.
  { cbn [map child_calls length paths_from]. split; [lia|].
    by rewrite drop_all. }
  cbn [map child_calls paths_from length].
  destruct (child_counted L t h p cs seen HL Hcs) as (cs' & HL' & Hcs' & Hnew).
  destruct (child_fresh L t h) as [Haddr Hlen].
  destruct (IH _ p cs' (t :: seen) HL' Hcs') as [Hlen' Hpaths].
  split; [lia|].
  rewrite Hlen in Hpaths.
  assert (Hat : child_calls (map (λ t, (L, t)) tags) (child L t h).1 !! length h
                = Some (mkLocation (child_path p seen t) ∅)).
  { rewrite child_calls_other.
    - by rewrite <- Haddr.
    - lia.
    - apply lookup_lt_Some in HL. lia. }
  rewrite (drop_S _ _ _ Hat). cbn [fmap list_fmap _path]. by rewrite <- Hpaths.
Qed.

(** X14. The children of one parent get different paths: when the tags
    hold no opening bracket, the Locations that a run of [child] calls on a
    fresh Location produces, one per tag, carry pairwise different paths,
    however often a tag repeats. *)
Theorem sibling_paths_distinct (h0 : heap) (p : string) (tags : list string) :
  Forall (λ t, no_bracket t = true) tags →
  let L := length h0 in
  let h := child_calls (map (λ t, (L, t)) tags) (Location_init p h0).1 in
  length h = S L + length tags
  ∧ _path <$> drop (S L) h = paths_from p [] tags
  ∧ NoDup (_path <$> drop (S L) h).
Proof.
  intros Htags L h.
  assert (HL : (Location_init p h0).1 !! L = Some (mkLocation p ∅)).
  { unfold Location_init. cbn [fst]. by rewrite list_lookup_middle. }
  destruct (child_calls_paths L tags _ p ∅ [] HL counted_empty) as [Hlen Hpaths].
  unfold Location_init in Hlen, Hpaths. cbn [fst] in Hlen, Hpaths.
  rewrite length_app in Hlen, Hpaths. cbn [length] in Hlen, Hpaths.
  rewrite Nat.add_1_r in Hlen, Hpaths.
  subst h L. unfold Location_init. cbn [fst].
  split; [exact Hlen|]. split; [exact Hpaths|].
  rewrite Hpaths. by apply NoDup_paths_from.
Qed.

Lemma sibling_paths_distinct_witness :
  NoDup (_path <$> drop 1
           (child_calls (map (λ t, (0, t)) ["b"; "c"; "b"]) (Location_init "a" []).1)).
Proof.
  refine (proj2 (proj2 (sibling_paths_distinct [] "a" ["b"; "c"; "b"] _))).
  repeat constructor.
Defined.

(** ** Equal elements and the other keywords *)

Lemma get_Some_key (d : list (string * string)) key v :
  get d key = Some v → key ∈ keys d.
Proof.
  unfold keys. induction d as [|[k w] d IH]; cbn [get fmap list_fmap fst]; [done|].
  destruct (String.eqb_spec k key) as [->|Hne].
  - intros _. by left.
  - intros H. right. by apply IH.
Qed.

Lemma pairwise_Forall2 (P : Element → Element → Prop) acts exps :
  pairwise P acts exps ↔ Forall2 P acts exps.
Proof.
  revert exps. induction acts as [|a acts IH]; intros [|e exps]; cbn [pairwise].
  - split; [constructor | done].
  - split; [done | inversion 1].
  - split; [done | inversion 1].
  - rewrite IH. split.
    + intros [? ?]. by constructor.
    + by inversion 1.
Qed.

(** Related under strict equality without a normaliser: the same texts. *)
Lemma related_extracted_text a :
  ∀ e, related (mkElementComparator should_be_equal None) a e →
       extracted_text a = extracted_text e
       ∧ default "" (tail a) = default "" (tail e).
Proof.
  induction a as [t d x y cs IH] using Element_tree_ind. intros e.
  rewrite related_unfold. cbn [_comparator tag attrib text tail children].
  unfold should_be_equal. rewrite !text_not_normalized.
  intros (_ & _ & _ & Htext & Htail & Hkids).
  apply bool_decide_eq_true in Htext, Htail.
  injection Htext as Htext. injection Htail as Htail.
  split; [|done]. destruct e as [t' d' x' y' cs'].
  cbn [extracted_text text children] in *. rewrite Htext. f_equal. f_equal.
  clear -IH Hkids. revert cs' Hkids.
  induction IH as [|c cs Hc _ IHcs]; intros [|c' cs']; cbn [pairwise map]; try done.
  intros [Hrel Hrest]. destruct (Hc c' Hrel) as [-> ->]. f_equal. by apply IHcs.
Qed.

(** X15. Equality of elements is inherited by their children: when
    [elements_should_be_equal] passes for two elements, they have the same
    number of children and it passes for every pair of children at the
    same position, under the same normalisation setting. *)
Theorem equal_elements_have_equal_children
    (ET_parse : string → option Element) (findall : Element → string → list Element)
    (actual expected : Element) (normalize_whitespace : bool) :
  elements_should_be_equal ET_parse findall (Parsed actual) (Parsed expected)
    normalize_whitespace = Ok () →
  length (children actual) = length (children expected)
  ∧ Forall2 (λ c d, elements_should_be_equal ET_parse findall (Parsed c) (Parsed d)
                      normalize_whitespace = Ok ())
      (children actual) (children expected)
  ∧ get_child_elements ET_parse findall (Parsed actual) "." = Ok (children actual)
  ∧ get_child_elements ET_parse findall (Parsed expected) "." = Ok (children expected).
Proof.
  unfold elements_should_be_equal. rewrite compare_elements_Ok_iff.
  intros (a & e & [= <-] & [= <-] & Hrel).
  apply related_unfold in Hrel as (_ & _ & _ & _ & _ & Hkids).
  split; [by eapply pairwise_length|]. split; [|done].
  apply pairwise_Forall2 in Hkids.
  eapply Forall2_impl; [exact Hkids|].
  intros c d Hcd. cbn beta. rewrite compare_elements_Ok_iff. by exists c, d.
Qed.

Lemma equal_elements_have_equal_children_witness :
  Forall2 (λ c d, elements_should_be_equal (λ _, None) (λ _ _, [])
                    (Parsed c) (Parsed d) false = Ok ())
    (children pair_ab) (children pair_ba).
Proof.
  refine (proj1 (proj2 (equal_elements_have_equal_children (λ _, None) (λ _ _, [])
                   pair_ab pair_ba false _))).
  vm_compute. reflexivity.
Defined.

(** X16. Equal elements have equal text: when [elements_should_be_equal]
    passes without whitespace normalisation, [get_element_text] returns the
    same string for both elements, with and without normalising the
    result. *)
Theorem equal_elements_have_equal_text
    (ET_parse : string → option Element) (findall : Element → string → list Element)
    (actual expected : Element) (normalize_result : bool) :
  elements_should_be_equal ET_parse findall (Parsed actual) (Parsed expected) false
    = Ok () →
  get_element_text ET_parse findall (Parsed actual) "." normalize_result
  = get_element_text ET_parse findall (Parsed expected) "." normalize_result.
Proof.
  unfold elements_should_be_equal. rewrite compare_elements_Ok_iff.
  intros (a & e & [= <-] & [= <-] & Hrel).
  apply related_extracted_text in Hrel as [Htext _].
  rewrite (get_element_text_of _ _ _ _ _ actual) by done.
  rewrite (get_element_text_of _ _ _ _ _ expected) by done.
  unfold element_text. by rewrite Htext.
Qed.

Lemma equal_elements_have_equal_text_witness :
  get_element_text (λ _, None) (λ _ _, []) (Parsed pair_ab) "." true
  = get_element_text (λ _, None) (λ _ _, []) (Parsed pair_ba) "." true.
Proof.
  refine (equal_elements_have_equal_text (λ _, None) (λ _ _, [])
            pair_ab pair_ba true _).
  vm_compute. reflexivity.
Defined.

(** X17. Equal elements have equal attributes: when
    [elements_should_be_equal] passes, [get_element_attribute] returns the
    same value for both elements, for every attribute name and default. *)
Theorem equal_elements_have_equal_attributes
    (ET_parse : string → option Element) (findall : Element → string → list Element)
    (actual expected : Element) (normalize_whitespace : bool)
    (name : string) (default : value) :
  elements_should_be_equal ET_parse findall (Parsed actual) (Parsed expected)
    normalize_whitespace = Ok () →
  get_element_attribute ET_parse findall (Parsed actual) name "." default
  = get_element_attribute ET_parse findall (Parsed expected) name "." default.
Proof.
  unfold elements_should_be_equal. rewrite compare_elements_Ok_iff.
  intros (a & e & [= <-] & [= <-] & Hrel).
  apply related_unfold in Hrel as (_ & Hnames & Hvals & _).
  cbn [_comparator comparator_for] in Hvals.
  unfold get_element_attribute.
  cbn [get_element String.eqb Ascii.eqb Bool.eqb _get_parent rbind].
  f_equal.
  destruct (get (attrib actual) name) as [v|] eqn:Ha.
  - pose proof (get_Some_key _ _ _ Ha) as Hkey.
    specialize (Hvals name Hkey). rewrite Ha in Hvals.
    apply bool_decide_eq_true in Hvals.
    destruct (get (attrib expected) name); [|done]. by injection Hvals as <-.
  - destruct (get (attrib expected) name) as [v|] eqn:He; [|done].
    apply get_Some_key in He. rewrite <- Hnames in He.
    apply get_of_key in He as [v' Hv']. congruence.
Qed.

Lemma equal_elements_have_equal_attributes_witness :
  get_element_attribute (λ _, None) (λ _ _, []) (Parsed pair_ab) "b" "." VNone
  = get_element_attribute (λ _, None) (λ _ _, []) (Parsed pair_ba) "b" "." VNone.
Proof.
  refine (equal_elements_have_equal_attributes (λ _, None) (λ _ _, [])
            pair_ab pair_ba false "b" VNone _).
  vm_compute. reflexivity.
Defined.

(** ** Strict equality against the other comparison modes *)

Lemma should_be_equal_iff a b : should_be_equal a b = true ↔ a = b.
Proof. apply bool_decide_eq_true. Qed.

Lemma text_comparator c1 c2 normalizer t :
  _text (mkElementComparator c1 normalizer) t
  = _text (mkElementComparator c2 normalizer) t.
Proof. reflexivity. Qed.

Lemma related_equal_match (matches : string → string → bool) normalizer a :
  (∀ s, matches s s = true) →
  ∀ e, related (mkElementComparator should_be_equal normalizer) a e →
       related (mkElementComparator (should_match matches) normalizer) a e.
Proof.
  intros Hrefl. induction a as [t d x y cs IH] using Element_tree_ind. intros e.
  rewrite !related_unfold. cbn [_comparator tag attrib text tail children].
  rewrite !(text_comparator (should_match matches) should_be_equal).
  intros (Htag & Hnames & Hvals & Htext & Htail & Hkids).
  apply should_be_equal_iff in Htext, Htail.
  injection Htext as Htext. injection Htail as Htail.
  split; [done|]. split; [done|]. split; [|split; [|split]].
  - intros key Hkey. specialize (Hvals key Hkey).
    apply should_be_equal_iff in Hvals. rewrite <- Hvals.
    destruct (get_of_key d key Hkey) as [v ->]. apply Hrefl.
  - rewrite Htext. apply Hrefl.
  - rewrite Htail. apply Hrefl.
  - clear -IH Hkids. revert Hkids. generalize (children e).
    induction IH as [|c cs Hc _ IHcs]; intros [|c' cs']; cbn [pairwise]; try done.
    intros [Hrel Hrest]. split; [by apply Hc | by apply IHcs].
Qed.

Lemma related_without_then_with a :
  ∀ e, related (mkElementComparator should_be_equal None) a e →
       related (mkElementComparator should_be_equal (Some _normalize_whitespace)) a e.
Proof.
  induction a as [t d x y cs IH] using Element_tree_ind. intros e.
  rewrite !related_unfold. cbn [_comparator tag attrib text tail children].
  rewrite !text_normalized, !text_not_normalized.
  intros (Htag & Hnames & Hvals & Htext & Htail & Hkids).
  apply should_be_equal_iff in Htext, Htail.
  injection Htext as Htext. injection Htail as Htail.
  split; [done|]. split; [done|]. split; [done|]. split; [|split].
  - apply should_be_equal_iff. by rewrite Htext.
  - apply should_be_equal_iff. by rewrite Htail.
  - clear -IH Hkids. revert Hkids. generalize (children e).
    induction IH as [|c cs Hc _ IHcs]; intros [|c' cs']; cbn [pairwise]; try done.
    intros [Hrel Hrest]. split; [by apply Hc | by apply IHcs].
Qed.

(** X18. With a pattern matcher that accepts every string as a pattern for
    itself, whatever passes [elements_should_be_equal] passes
    [elements_should_match], under the same normalisation setting. *)
Theorem equal_elements_match
    (ET_parse : string → option Element) (findall : Element → string → list Element)
    (matches : string → string → bool)
    (src expected : source) (normalize_whitespace : bool) :
  (∀ s, matches s s = true) →
  elements_should_be_equal ET_parse findall src expected normalize_whitespace = Ok () →
  elements_should_match ET_parse findall matches src expected normalize_whitespace
  = Ok ().
Proof.
  intros Hrefl. unfold elements_should_be_equal, elements_should_match.
  rewrite !compare_elements_Ok_iff.
  intros (a & e & Ha & He & Hrel). exists a, e.
  split; [done|]. split; [done|]. by apply related_equal_match.
Qed.

Lemma equal_elements_match_witness :
  elements_should_match (λ _, None) (λ _ _, []) String.eqb
    (Parsed pair_ab) (Parsed pair_ba) false = Ok ().
Proof.
  refine (equal_elements_match (λ _, None) (λ _ _, []) String.eqb
            (Parsed pair_ab) (Parsed pair_ba) false _ _).
  - apply String.eqb_refl.
  - vm_compute. reflexivity.
Defined.

(** X19. Whitespace normalisation only widens equality: whatever passes
    [elements_should_be_equal] without normalisation passes it with
    normalisation. *)
Theorem normalization_widens_equality
    (ET_parse : string → option Element) (findall : Element → string → list Element)
    (src expected : source) :
  elements_should_be_equal ET_parse findall src expected false = Ok () →
  elements_should_be_equal ET_parse findall src expected true = Ok ().
Proof.
  unfold elements_should_be_equal. rewrite !compare_elements_Ok_iff.
  intros (a & e & Ha & He & Hrel). exists a, e.
  split; [done|]. split; [done|]. by apply related_without_then_with.
Qed.

Lemma normalization_widens_equality_witness :
  elements_should_be_equal (λ _, None) (λ _ _, [])
    (Parsed pair_ab) (Parsed pair_ba) true = Ok ().
Proof.
  refine (normalization_widens_equality (λ _, None) (λ _ _, [])
            (Parsed pair_ab) (Parsed pair_ba) _).
  vm_compute. reflexivity.
Defined.

(** Node by node, normalisation can hide what the whole text shows: the
    elements [<a>x<b>y</b></a>] and [<a>x <b>y</b></a>] are equal under
    normalisation, and their normalised texts differ. *)
Example normalized_equal_elements_differ_in_text :
  let a := mkElement "a" [] (Some "x") None [mkElement "b" [] (Some "y") None []] in
  let e := mkElement "a" [] (Some "x ") None [mkElement "b" [] (Some "y") None []] in
  elements_should_be_equal (λ _, None) (λ _ _, []) (Parsed a) (Parsed e) true = Ok ()
  ∧ get_element_text (λ _, None) (λ _ _, []) (Parsed a) "." true = Ok "xy"
  ∧ get_element_text (λ _, None) (λ _ _, []) (Parsed e) "." true = Ok "x y".
Proof. repeat split; vm_compute; reflexivity. Qed.
